(** * lightweight_mmm/utils.py: distribution distances and Beta moment matching

    A shallow embedding of the numerical core of [utils.py]:
    [get_halfnormal_mean_from_scale], [get_halfnormal_scale_from_mean],
    [get_beta_params_from_mu_sigma], [_estimate_pdf], [_pmf] and
    [distance_pior_posterior].

    Numbers.  Finite floating-point values are idealised as the real numbers
    of the Standard Library (no rounding, no overflow, no signed zero).  The
    non-finite values that NumPy arithmetic produces without raising
    ([nan], [inf], [-inf]) are kept as explicit constructors of [float64],
    because whether a call raises, returns a number or returns [nan] is part
    of what is verified.  For the same reason the one underflow that changes
    an outcome at ordinary magnitudes is kept: the Gaussian kernel far from
    its centre is exactly zero (see [norm_pdf]).  Python-level exceptions are
    the [Raise] outcomes of the [result] type. *)

From Stdlib Require Import String Reals Lra Lia ZArith Bool List.
From Stdlib Require Import Sorted ClassicalEpsilon Ranalysis5.
From Stdlib Require Import Permutation.
Import ListNotations.

Open Scope R_scope.

(** ** Python outcomes *)

Inductive exn : Type :=
| ValueError
| IndexError
| ZeroDivisionError
| UnboundLocalError
| AttributeError.

Inductive result (A : Type) : Type :=
| Ok (a : A)
| Raise (e : exn).

Arguments Ok {A} a.
Arguments Raise {A} e.

Definition bind {A B : Type} (m : result A) (k : A -> result B) : result B :=
  match m with
  | Ok a => k a
  | Raise e => Raise e
  end.

Notation "x <- m ;; k" := (bind m (fun x => k))
  (at level 61, m at next level, right associativity).

(** ** NumPy scalars *)

Inductive float64 : Type :=
| Fin (r : R)
| PInf
| NInf
| NaN.

Definition Rleb (a b : R) : bool := if Rle_dec a b then true else false.
Definition Rltb (a b : R) : bool := if Rlt_dec a b then true else false.
Definition Reqb (a b : R) : bool := if Req_dec_T a b then true else false.

Definition fneg (a : float64) : float64 :=
  match a with
  | Fin x => Fin (- x)
  | PInf => NInf
  | NInf => PInf
  | NaN => NaN
  end.

Definition fadd (a b : float64) : float64 :=
  match a, b with
  | NaN, _ | _, NaN => NaN
  | Fin x, Fin y => Fin (x + y)
  | PInf, NInf | NInf, PInf => NaN
  | PInf, _ | _, PInf => PInf
  | NInf, _ | _, NInf => NInf
  end.

Definition fsub (a b : float64) : float64 := fadd a (fneg b).

(** [inf_signed x i] is the infinity [i] multiplied by the sign of the finite
    [x]; [0 * inf] is [nan]. *)
Definition inf_signed (x : R) (positive : bool) : float64 :=
  if Rltb 0 x then (if positive then PInf else NInf)
  else if Rltb x 0 then (if positive then NInf else PInf)
  else NaN.

Definition fmul (a b : float64) : float64 :=
  match a, b with
  | NaN, _ | _, NaN => NaN
  | Fin x, Fin y => Fin (x * y)
  | Fin x, PInf | PInf, Fin x => inf_signed x true
  | Fin x, NInf | NInf, Fin x => inf_signed x false
  | PInf, PInf | NInf, NInf => PInf
  | PInf, NInf | NInf, PInf => NInf
  end.

(** NumPy true division: a zero divisor gives [nan] or an infinity (with a
    warning), never an exception.  The zero divisor is taken as [+0.0]. *)
Definition fdiv (a b : float64) : float64 :=
  match a, b with
  | NaN, _ | _, NaN => NaN
  | Fin x, Fin y =>
      if Reqb y 0 then
        (if Rltb 0 x then PInf else if Rltb x 0 then NInf else NaN)
      else Fin (x / y)
  | Fin _, PInf | Fin _, NInf => Fin 0
  | PInf, Fin y => if Rltb y 0 then NInf else PInf
  | NInf, Fin y => if Rltb y 0 then PInf else NInf
  | PInf, PInf | PInf, NInf | NInf, PInf | NInf, NInf => NaN
  end.

Definition fsqrt (a : float64) : float64 :=
  match a with
  | Fin x => if Rltb x 0 then NaN else Fin (sqrt x)
  | PInf => PInf
  | NInf => NaN
  | NaN => NaN
  end.

Definition flog (a : float64) : float64 :=
  match a with
  | Fin x => if Rltb 0 x then Fin (ln x) else if Rltb x 0 then NaN else NInf
  | PInf => PInf
  | NInf => NaN
  | NaN => NaN
  end.

(** [np.minimum]: element-wise minimum that propagates [nan]. *)
Definition fminimum (a b : float64) : float64 :=
  match a, b with
  | NaN, _ | _, NaN => NaN
  | Fin x, Fin y => Fin (Rmin x y)
  | NInf, _ | _, NInf => NInf
  | PInf, y => y
  | x, PInf => x
  end.

(** ** NumPy arrays

    One-dimensional arrays are lists.  Every binary array operation of the
    source is applied to two arrays built over the same grid, so they have
    the same length and element-wise application is [map2]. *)

Definition map2 {A B C : Type} (f : A -> B -> C) (l : list A) (m : list B)
  : list C :=
  map (fun ab => f (fst ab) (snd ab)) (combine l m).

Definition Rsum (l : list R) : R := fold_right Rplus 0 l.
Definition Zsum (l : list Z) : Z := fold_right Z.add 0%Z l.
Definition fsum (l : list float64) : float64 := fold_right fadd (Fin 0) l.

(** ** Half-normal helpers (utils.py, lines 167-176) *)

Definition get_halfnormal_mean_from_scale (scale : R) : R :=
  scale * sqrt 2 / sqrt PI.

Definition get_halfnormal_scale_from_mean (mean : R) : R :=
  mean * sqrt PI / sqrt 2.

(** ** Moment-matching solver (utils.py, lines 179-201) *)

(** Division of Python floats: a zero divisor raises. *)
Definition pydiv (a b : R) : result R :=
  if Reqb b 0 then Raise ZeroDivisionError else Ok (a / b).

(** The inner function [_f] of [get_beta_params_from_mu_sigma]:
    [x ** 2 + 4 * x + 5 + 2 / x - 1 / sigma ** 2]. *)
Definition _f (sigma x : R) : result R :=
  t <- pydiv 2 x ;;
  u <- pydiv 1 (sigma ^ 2) ;;
  Ok (x ^ 2 + 4 * x + 5 + t - u).

(** The function of the specification, f(b) = b^2 + 4b + 5 + 2/b - 1/sigma^2,
    as a real function. *)
Definition f_spec (sigma b : R) : R :=
  b ^ 2 + 4 * b + 5 + 2 / b - 1 / sigma ^ 2.

(** [scipy.optimize.root_scalar(f, bracket=..., method="brentq").root].
    SciPy evaluates [f] at both ends of the bracket (an exception of [f]
    propagates), raises [ValueError] when the two values have the same strict
    sign, returns an end point where [f] vanishes, and otherwise iterates
    inside the bracket.  The iteration is idealised as exact: its result is
    some zero of [f] strictly inside the bracket. *)
Definition root_scalar_brentq (f : R -> result R) (bracket : R * R)
  : result R :=
  let (xa, xb) := bracket in
  fa <- f xa ;;
  fb <- f xb ;;
  if Rltb 0 (fa * fb) then Raise ValueError
  else if Reqb fa 0 then Ok xa
  else if Reqb fb 0 then Ok xb
  else Ok (epsilon (inhabits xa)
             (fun r => Rmin xa xb < r < Rmax xa xb /\ f r = Ok 0)).

Definition default_bracket : R * R := (5 / 10, 100).

Definition get_beta_params_from_mu_sigma (mu sigma : R) (bracket : R * R)
  : result (R * R) :=
  b <- root_scalar_brentq (_f sigma) bracket ;;
  t <- pydiv 1 mu ;;
  a <- pydiv b (t - 1) ;;
  Ok (a, b).


(** ** Array helpers from NumPy and JAX *)

(** [jnp.unique]: the sorted distinct values of an array, by insertion into
    a strictly increasing list. *)
Fixpoint insert_uniq (v : R) (l : list R) : list R :=
  match l with
  | [] => [v]
  | h :: t =>
      if Rltb v h then v :: l
      else if Rltb h v then h :: insert_uniq v t
      else l
  end.

Definition unique (l : list R) : list R := fold_right insert_uniq [] l.

(** [jnp.sum(p <= v)]: the number of samples at or below [v]. *)
Definition count_le (p : list R) (v : R) : Z :=
  Z.of_nat (length (filter (fun s => Rleb s v) p)).

(** [jnp.diff]: consecutive differences. *)
Fixpoint diff (l : list Z) : list Z :=
  match l with
  | a :: (b :: _) as t => (b - a)%Z :: diff t
  | _ => []
  end.

(** [a.min()] and [a.max()] of an array: an empty array raises. *)
Definition array_min (a : list R) : result R :=
  match a with
  | [] => Raise ValueError
  | h :: t => Ok (fold_left Rmin t h)
  end.

Definition array_max (a : list R) : result R :=
  match a with
  | [] => Raise ValueError
  | h :: t => Ok (fold_left Rmax t h)
  end.

(** [np.linspace(start, stop, num)]: [num] points, the i-th one at
    [start + i * (stop - start) / (num - 1)]. *)
Definition linspace (start stop : R) (num : nat) : list R :=
  map (fun i => start + INR i * ((stop - start) / INR (num - 1))) (seq 0 num).

(** The distance from the centre beyond which the double-precision value
    of [exp(-d^2 / 2) / sqrt(2 pi)] is exactly [0.0]: the exponential
    falls below the smallest positive double, 2^-1074, at about 38.58. *)
Definition underflow_distance : R := 3858 / 100.

(** [stats.norm(loc).pdf(x)]: the unit-variance Gaussian density centred at
    [loc], [exp(-(x - loc)^2 / 2) / sqrt(2 pi)]; beyond the underflow
    distance the computed value is exactly zero. *)
Definition norm_pdf (loc x : R) : R :=
  if Rltb underflow_distance (Rabs (x - loc)) then 0
  else exp (- ((x - loc) ^ 2) / 2) / sqrt (2 * PI).

(** ** Continuous density estimator (utils.py, lines 204-215)

    [sum(...)] starts from the integer [0]: with no sample the density is
    that integer and [density.sum()] is an attribute error; otherwise the
    first kernel is added to [0] and the others to the running array.  The
    final division is NumPy's: where every kernel value has underflowed the
    total is zero and each entry is 0/0, [nan], with no exception. *)
Definition _estimate_pdf (p x : list R) : result (list float64) :=
  match p with
  | [] => Raise AttributeError
  | xi :: rest =>
      let density :=
        fold_left (fun acc xj => map2 Rplus acc (map (norm_pdf xj) x))
                  rest (map (fun v => 0 + norm_pdf xi v) x) in
      Ok (map (fun d => fdiv (Fin d) (Fin (Rsum density))) density)
  end.

(** ** Discrete mass estimator (utils.py, lines 218-230)

    [p_cdf[0]] on an empty JAX array raises [IndexError]; the division is
    NumPy's, so a zero total does not raise. *)
Definition _pmf (p x : list R) : result (list float64) :=
  let p_cdf := map (count_le p) x in
  match p_cdf with
  | [] => Raise IndexError
  | c0 :: _ =>
      let p_pmf := c0 :: diff p_cdf in
      let total := Zsum p_pmf in
      Ok (map (fun c => fdiv (Fin (IZR c)) (Fin (IZR total))) p_pmf)
  end.

(** ** SciPy metrics *)

Definition clip (v lo hi : R) : R := Rmin (Rmax v lo) hi.

(** [stats.ks_2samp(p, q).statistic] (two-sided), as in the SciPy releases
    this code was written against: an empty sample is rejected with
    [ValueError]; otherwise both empirical distribution functions are
    evaluated at every pooled data point and the statistic is the larger of
    the largest difference and the clipped largest negated difference.  The
    pooled points are taken in the order [p ++ q]; SciPy sorts each sample
    first, which changes neither the counts nor the extrema. *)
Definition ks_2samp_statistic (p q : list R) : result float64 :=
  match p, q with
  | [], _ | _, [] => Raise ValueError
  | _ :: _, _ :: _ =>
      let cddiff v :=
        IZR (count_le p v) / INR (length p)
        - IZR (count_le q v) / INR (length q) in
      match map cddiff (p ++ q) with
      | [] => Raise ValueError
      | d :: ds =>
          let minS := clip (- fold_left Rmin ds d) 0 1 in
          let maxS := fold_left Rmax ds d in
          Ok (Fin (Rmax minS maxS))
      end
  end.

Definition fpositive (a : float64) : bool :=
  match a with
  | Fin x => Rltb 0 x
  | PInf => true
  | NInf | NaN => false
  end.

Definition fnonneg (a : float64) : bool :=
  match a with
  | Fin x => Rleb 0 x
  | PInf => true
  | NInf | NaN => false
  end.

Definition fzero (a : float64) : bool :=
  match a with
  | Fin x => Reqb x 0
  | _ => false
  end.

(** [scipy.special.rel_entr]. *)
Definition rel_entr (x y : float64) : float64 :=
  match x, y with
  | NaN, _ | _, NaN => NaN
  | _, _ =>
      if fpositive x && fpositive y then fmul x (flog (fdiv x y))
      else if fzero x && fnonneg y then Fin 0
      else PInf
  end.

(** [scipy.spatial.distance.jensenshannon(p, q)] with the default base:
    both arguments are normalised again, then the square root of half the
    sum of the two relative entropies to the mid-point. *)
Definition jensenshannon (P Q : list float64) : float64 :=
  let p := map (fun a => fdiv a (fsum P)) P in
  let q := map (fun a => fdiv a (fsum Q)) Q in
  let m := map2 (fun a b => fdiv (fadd a b) (Fin 2)) p q in
  let left := map2 rel_entr p m in
  let right := map2 rel_entr q m in
  let js := fadd (fsum left) (fsum right) in
  fsqrt (fdiv js (Fin 2)).

(** ** Distance dispatcher (utils.py, lines 233-271) *)

(** [np.sqrt(jnp.sum((np.sqrt(p_pdf) - np.sqrt(q_pdf)) ** 2)) / np.sqrt(2)] *)
Definition hellinger (P Q : list float64) : float64 :=
  fdiv (fsqrt (fsum (map2 (fun a b =>
                             let d := fsub (fsqrt a) (fsqrt b) in fmul d d)
                          P Q)))
       (Fin (sqrt 2)).

(** [1 - np.minimum(p_pdf, q_pdf).sum()] *)
Definition min_overlap (P Q : list float64) : float64 :=
  fsub (Fin 1) (fsum (map2 fminimum P Q)).

(** The body of the [elif method in ["Hellinger", "JS", "min"]] branch: the
    two probability vectors over the shared grid. *)
Definition probability_functions (p q : list R) (discrete : bool)
  : result (list float64 * list float64) :=
  if discrete then
    let x := unique (p ++ q) in
    p_pdf <- _pmf p x ;;
    q_pdf <- _pmf q x ;;
    Ok (p_pdf, q_pdf)
  else
    pmin <- array_min p ;;
    qmin <- array_min q ;;
    pmax <- array_max p ;;
    qmax <- array_max q ;;
    let minx := Rmin pmin qmin in
    let maxx := Rmax pmax qmax in
    let x := linspace minx maxx 100 in
    p_pdf <- _estimate_pdf p x ;;
    q_pdf <- _estimate_pdf q x ;;
    Ok (p_pdf, q_pdf).

Definition estimator_method (method : string) : bool :=
  ((method =? "Hellinger") || (method =? "JS") || (method =? "min"))%string.

(** The locals [p_pdf] and [q_pdf] are bound only by the estimator branch;
    reading them unbound raises [UnboundLocalError]. *)
Definition read_locals (pdfs : option (list float64 * list float64))
  : result (list float64 * list float64) :=
  match pdfs with
  | Some v => Ok v
  | None => Raise UnboundLocalError
  end.

Definition distance_pior_posterior (p q : list R) (method : string)
  (discrete : bool) : result float64 :=
  if (method =? "KS")%string then ks_2samp_statistic p q
  else
    pdfs <- (if estimator_method method
             then v <- probability_functions p q discrete ;; Ok (Some v)
             else Ok None) ;;
    if (method =? "Hellinger")%string then
      v <- read_locals pdfs ;; Ok (hellinger (fst v) (snd v))
    else if (method =? "JS")%string then
      v <- read_locals pdfs ;; Ok (jensenshannon (fst v) (snd v))
    else
      v <- read_locals pdfs ;; Ok (min_overlap (fst v) (snd v)).

(** ** Vocabulary of the properties *)

(** The errors that report a rejected argument: [ValueError] is what the
    source's own argument check (line 107) and the argument checks of SciPy
    and NumPy raise.  The others report a statement that went wrong while
    running: an unbound local, a missing attribute, an index out of range, a
    division by zero. *)
Definition explicit_error (e : exn) : bool :=
  match e with
  | ValueError => true
  | IndexError | ZeroDivisionError | UnboundLocalError | AttributeError =>
      false
  end.

(** The i-th mass before normalisation, in the words of the specification:
    the count of samples at or below grid point i, minus the count at or
    below grid point i-1; the first entry is the raw count. *)
Definition mass_count (s x : list R) (i : nat) : Z :=
  match i with
  | O => count_le s (nth 0 x 0)
  | S j => (count_le s (nth i x 0%R) - count_le s (nth j x 0%R))%Z
  end.

(** The sum over the samples of the Gaussian kernel evaluated at [v]. *)
Definition kernel_sum (s : list R) (v : R) : R :=
  Rsum (map (fun xi => norm_pdf xi v) s).

(** The kernel of some sample of [s] reaches some point of the grid [x]:
    the two are no farther apart than the underflow distance. *)
Definition kernel_reaches (s x : list R) : Prop :=
  exists u g, In u s /\ In g x /\ Rabs (g - u) <= underflow_distance.


(** A probability function: non-negative weights that sum to one. *)
Definition probability_vector (V : list R) : Prop :=
  Forall (fun m => 0 <= m) V /\ Rsum V = 1.

(** [masses] is the vector of the specification for the samples [s] over
    the grid [x]: entry i is [mass_count s x i] divided by the total of these
    counts, and that total is not zero. *)
Definition normalised_masses (s x masses : list R) : Prop :=
  let total := Zsum (map (mass_count s x) (seq 0 (length x))) in
  total <> 0%Z
  /\ length masses = length x
  /\ (forall i, (i < length x)%nat ->
        nth i masses 0 = IZR (mass_count s x i) / IZR total).

(** [dens] is the normalised kernel estimate for the samples [s] over the
    grid [x]: entry i is the kernel sum at grid point i divided by the total
    of the kernel sums over the grid, and that total is not zero. *)
Definition normalised_density (s x dens : list R) : Prop :=
  let total := Rsum (map (kernel_sum s) x) in
  total <> 0
  /\ length dens = length x
  /\ (forall i, (i < length x)%nat ->
        nth i dens 0 = kernel_sum s (nth i x 0) / total).

(** What the continuous estimator returns for the samples [s] over the grid
    [x]: the normalised kernel estimate, a probability vector, when the
    total of the kernel sums is not zero; a vector of [nan] when it is zero
    (every kernel value has underflowed). *)
Definition density_or_nan (s x : list R) (A : list float64) : Prop :=
  let total := Rsum (map (kernel_sum s) x) in
  (total <> 0
   /\ exists dens,
        A = map Fin dens
        /\ normalised_density s x dens
        /\ probability_vector dens)
  \/ (total = 0 /\ A = map (fun _ => NaN) x).

Definition euclidean_norm (v : list R) : R :=
  sqrt (Rsum (map (fun c => c ^ 2) v)).

(** The Hellinger distance of the specification: (1/sqrt 2) times the
    Euclidean norm of the pointwise difference of the square roots. *)
Definition hellinger_distance (P Q : list R) : R :=
  1 / sqrt 2 * euclidean_norm (map2 (fun a b => sqrt a - sqrt b) P Q).

(** The number of samples equal to [v]. *)
Definition count_eq (s : list R) (v : R) : Z :=
  Z.of_nat (length (filter (fun u => Reqb u v) s)).

(** The overlap complement of the "min" method: one minus the sum of the
    pointwise minima. *)
Definition overlap_distance (P Q : list R) : R :=
  1 - Rsum (map2 Rmin P Q).

(** The empirical distribution function of the samples [s] at [v]. *)
Definition ecdf (s : list R) (v : R) : R :=
  IZR (count_le s v) / INR (length s).

(** The relative entropy term x ln (x / y) of [scipy.special.rel_entr] on
    reals, for [x >= 0]. *)
Definition rel_entr_R (a m : R) : R :=
  if Rltb 0 a then a * ln (a / m) else 0.

(** The Jensen-Shannon distance of two probability vectors (natural
    logarithm): the square root of half the sum of the relative entropies of
    each vector to their mid-point. *)
Definition js_distance (P Q : list R) : R :=
  let M := map2 (fun a b => (a + b) / 2) P Q in
  sqrt ((Rsum (map2 rel_entr_R P M) + Rsum (map2 rel_entr_R Q M)) / 2).

(** ** Outlier interpolation (utils.py, lines 274-291)

    Indices are natural numbers: the negative indices that JAX would wrap
    around are not modelled.  *)

(** An exception of JAX indexing that the functions above never raise
    is kept apart from [exn]. *)
Inductive raised : Type :=
| Std (e : exn)
| TypeError.

(** [[i for i in range(n) if i not in outlier_idx]] *)
Definition inverse_idx (n : nat) (outlier_idx : list nat) : list nat :=
  filter (fun i => negb (existsb (Nat.eqb i) outlier_idx)) (seq 0 n).

(** [a[idx]] on a JAX array with an integer index array: an index past the
    end is clamped to the last position. *)
Definition gather {A : Type} (d : A) (a : list A) (idx : list nat) : list A :=
  map (fun i => nth (Nat.min i (length a - 1)) a d) idx.

(** [np.searchsorted(xs, t)] on increasing [xs]: the number of entries
    strictly below [t]. *)
Definition searchsorted (xs : list R) (t : R) : nat :=
  length (filter (fun v => Rltb v t) xs).

(** [interp1d._call_linear] at one new point: the neighbouring entries are
    found by [searchsorted], clipped to [1, len - 1] (a lower index of -1
    wraps to the last entry), and the value is
    [slope * (t - x_lo) + y_lo]. *)
Definition _call_linear (xs ys : list R) (t : R) : float64 :=
  let idx := Nat.min (Nat.max (searchsorted xs t) 1) (length xs - 1) in
  let lo := match idx with O => (length xs - 1)%nat | S i => i end in
  let hi := idx in
  let x_lo := nth lo xs 0 in
  let x_hi := nth hi xs 0 in
  let y_lo := nth lo ys 0 in
  let y_hi := nth hi ys 0 in
  let slope := fdiv (Fin (y_hi - y_lo)) (Fin (x_hi - x_lo)) in
  fadd (fmul slope (Fin (t - x_lo))) (Fin y_lo).

(** [interpolate.interp1d(xs, ys, kind="linear")(x_new)] with SciPy's
    defaults: at least one data point is required, and a new point below the
    first or above the last data point raises [ValueError]. *)
Definition interp1d_linear (xs ys x_new : list R) : result (list float64) :=
  match xs with
  | [] => Raise ValueError
  | x0 :: _ =>
      let y_new := map (_call_linear xs ys) x_new in
      if existsb (fun t => Rltb t x0) x_new then Raise ValueError
      else if existsb (fun t => Rltb (last xs 0) t) x_new then Raise ValueError
      else Ok y_new
  end.

(** One update of [a.at[i].set(v)]: an index past the end is skipped. *)
Fixpoint set_nth (i : nat) (v : float64) (a : list float64) : list float64 :=
  match a, i with
  | [], _ => []
  | _ :: t, O => v :: t
  | h :: t, S j => h :: set_nth j v t
  end.

(** [a.at[idx].set(vals)] *)
Fixpoint scatter_set (a : list float64) (idx : list nat) (vals : list float64)
  : list float64 :=
  match idx, vals with
  | i :: idx', v :: vals' => scatter_set (set_nth i v a) idx' vals'
  | _, _ => a
  end.

(** With no index left, [jnp.array([])] is a float array and indexing with
    it is a [TypeError]. *)
Definition interpolate_outliers (x : list R) (outlier_idx : list nat)
  : list float64 + raised :=
  let time_idx := seq 0 (length x) in
  let inv := inverse_idx (length x) outlier_idx in
  match inv with
  | [] => inr TypeError
  | _ :: _ =>
      let xs := map INR (gather 0%nat time_idx inv) in
      let ys := gather 0 x inv in
      let x_new := map INR (gather 0%nat time_idx outlier_idx) in
      match interp1d_linear xs ys x_new with
      | Raise e => inr (Std e)
      | Ok y_new => inl (scatter_set (map Fin x) outlier_idx y_new)
      end
  end.

(** * Properties *)

(** ** Comparisons of reals *)

Lemma Reqb_true (a b : R) : a = b -> Reqb a b = true.
Proof. intros H. unfold Reqb. destruct (Req_dec_T a b); [reflexivity | contradiction]. Qed.

Lemma Reqb_false (a b : R) : a <> b -> Reqb a b = false.
Proof. intros H. unfold Reqb. destruct (Req_dec_T a b); [contradiction | reflexivity]. Qed.

Lemma Rltb_true (a b : R) : a < b -> Rltb a b = true.
Proof. intros H. unfold Rltb. destruct (Rlt_dec a b); [reflexivity | contradiction]. Qed.

Lemma Rltb_false (a b : R) : ~ a < b -> Rltb a b = false.
Proof. intros H. unfold Rltb. destruct (Rlt_dec a b); [contradiction | reflexivity]. Qed.

Lemma Rleb_true (a b : R) : a <= b -> Rleb a b = true.
Proof. intros H. unfold Rleb. destruct (Rle_dec a b); [reflexivity | contradiction]. Qed.

Lemma Rleb_false (a b : R) : ~ a <= b -> Rleb a b = false.
Proof. intros H. unfold Rleb. destruct (Rle_dec a b); [contradiction | reflexivity]. Qed.

(** ** Half-normal helpers *)

Lemma sqrt2_pos : 0 < sqrt 2.
Proof. apply sqrt_lt_R0. lra. Qed.

Lemma sqrtPI_pos : 0 < sqrt PI.
Proof. apply sqrt_lt_R0. exact PI_RGT_0. Qed.

(** C9. The two half-normal conversions are mutually inverse: converting a
    scale to a mean and back returns the scale, and converting a mean to a
    scale and back returns the mean. *)
Theorem halfnormal_conversions_inverse :
  (forall s : R,
      get_halfnormal_scale_from_mean (get_halfnormal_mean_from_scale s) = s)
  /\ (forall m : R,
      get_halfnormal_mean_from_scale (get_halfnormal_scale_from_mean m) = m).
Proof.
  pose proof sqrt2_pos as H2. pose proof sqrtPI_pos as Hpi.
  unfold get_halfnormal_scale_from_mean, get_halfnormal_mean_from_scale.
  split; intros v; field; split; lra.
Qed.

(** ** The moment-matching solver *)

Lemma pydiv_ok (a b : R) : b <> 0 -> pydiv a b = Ok (a / b).
Proof. intros H. unfold pydiv. now rewrite Reqb_false. Qed.

Lemma pydiv_zero (a : R) : pydiv a 0 = Raise ZeroDivisionError.
Proof. unfold pydiv. now rewrite Reqb_true. Qed.

Lemma _f_spec (sigma x : R) :
  x <> 0 -> sigma <> 0 -> _f sigma x = Ok (f_spec sigma x).
Proof.
  intros Hx Hs. unfold _f, f_spec.
  rewrite (pydiv_ok 2 x Hx). cbn.
  rewrite pydiv_ok; [reflexivity |].
  change (sigma ^ 2 <> 0). apply pow_nonzero. exact Hs.
Qed.

Lemma f_spec_continuous (sigma a : R) : a <> 0 -> continuity_pt (f_spec sigma) a.
Proof.
  intros Ha. apply derivable_continuous_pt.
  unfold f_spec. reg.
Qed.

(** *** The root finder on a continuous function *)

Lemma ivt_sign_change (f : R -> R) (x y : R) :
  (forall a, x <= a <= y -> continuity_pt f a) ->
  x < y -> f x * f y < 0 ->
  exists z, x < z < y /\ f z = 0.
Proof.
  intros Hc Hxy Hs.
  destruct (Rlt_dec (f x) 0) as [Hneg | Hnneg].
  - assert (Hy : 0 < f y) by nra.
    destruct (IVT_interv f x y Hc Hxy Hneg Hy) as [z [Hz Hfz]].
    exists z. split; [| exact Hfz].
    destruct Hz as [[Hxz | Hxz] [Hzy | Hzy]]; subst; split; lra.
  - assert (Hx : 0 < f x).
    { destruct (Rtotal_order (f x) 0) as [H | [H | H]]; [lra | | lra].
      rewrite H in Hs. lra. }
    assert (Hy : f y < 0) by nra.
    assert (Hc' : forall a, x <= a <= y -> continuity_pt (- f)%F a).
    { intros a Ha. apply continuity_pt_opp. now apply Hc. }
    assert (Hx' : (- f)%F x < 0) by (unfold opp_fct; lra).
    assert (Hy' : 0 < (- f)%F y) by (unfold opp_fct; lra).
    destruct (IVT_interv (- f)%F x y Hc' Hxy Hx' Hy') as [z [Hz Hfz]].
    unfold opp_fct in Hfz.
    exists z. split; [| lra].
    destruct Hz as [[Hxz | Hxz] [Hzy | Hzy]]; subst; split; lra.
Qed.

Section PositiveBracket.

Variables sigma lo hi : R.
Hypothesis Hs : sigma <> 0.
Hypothesis Hlo : 0 < lo.
Hypothesis Hhi : 0 < hi.

Lemma f_spec_interior_root :
  f_spec sigma lo * f_spec sigma hi < 0 ->
  exists r, (Rmin lo hi < r < Rmax lo hi) /\ _f sigma r = Ok 0.
Proof.
  intros Hprod.
  destruct (Rtotal_order lo hi) as [Hlt | [Heq | Hgt]].
  - destruct (ivt_sign_change (f_spec sigma) lo hi) as [z [Hz Hfz]];
      [intros a Ha; apply f_spec_continuous; lra | exact Hlt | exact Hprod |].
    exists z. rewrite Rmin_left, Rmax_right by lra.
    split; [exact Hz |]. rewrite _f_spec by lra. now rewrite Hfz.
  - subst hi. nra.
  - destruct (ivt_sign_change (f_spec sigma) hi lo) as [z [Hz Hfz]];
      [intros a Ha; apply f_spec_continuous; lra | lra | lra |].
    exists z. rewrite Rmin_right, Rmax_left by lra.
    split; [exact Hz |]. rewrite _f_spec by lra. now rewrite Hfz.
Qed.

(** With positive end points, a non-zero [sigma] and values of [f] that do
    not have the same strict sign, the root finder returns a zero of [f]
    inside the bracket. *)
Lemma root_scalar_brentq_finds :
  f_spec sigma lo * f_spec sigma hi <= 0 ->
  exists b, root_scalar_brentq (_f sigma) (lo, hi) = Ok b
            /\ Rmin lo hi <= b <= Rmax lo hi
            /\ f_spec sigma b = 0.
Proof.
  intros Hprod.
  unfold root_scalar_brentq.
  rewrite (_f_spec sigma lo), (_f_spec sigma hi) by lra. cbn.
  rewrite Rltb_false by lra.
  pose proof (Rmin_l lo hi) as Hminl. pose proof (Rmin_r lo hi) as Hminr.
  pose proof (Rmax_l lo hi) as Hmaxl. pose proof (Rmax_r lo hi) as Hmaxr.
  destruct (Req_dec_T (f_spec sigma lo) 0) as [Hz | Hnz].
  - rewrite Reqb_true by exact Hz. exists lo. repeat split; (lra || assumption).
  - rewrite Reqb_false by exact Hnz.
    destruct (Req_dec_T (f_spec sigma hi) 0) as [Hz' | Hnz'].
    + rewrite Reqb_true by exact Hz'. exists hi. repeat split; (lra || assumption).
    + rewrite Reqb_false by exact Hnz'.
      assert (Hstrict : f_spec sigma lo * f_spec sigma hi < 0).
      { destruct Hprod as [Hlt | Heq]; [exact Hlt |].
        apply Rmult_integral in Heq. tauto. }
      pose proof (epsilon_spec (inhabits lo)
                    (fun r => Rmin lo hi < r < Rmax lo hi /\ _f sigma r = Ok 0)
                    (f_spec_interior_root Hstrict))
        as [Hin Hroot].
      eexists. split; [reflexivity |].
      split; [lra |].
      set (b := epsilon _ _) in *.
      assert (Hb : 0 < b).
      { destruct (Rle_dec lo hi).
        - rewrite Rmin_left in Hin by lra. lra.
        - rewrite Rmin_right in Hin by lra. lra. }
      rewrite _f_spec in Hroot by lra. now inversion Hroot.
Qed.

Lemma root_scalar_brentq_same_sign :
  0 < f_spec sigma lo * f_spec sigma hi ->
  root_scalar_brentq (_f sigma) (lo, hi) = Raise ValueError.
Proof.
  intros Hprod. unfold root_scalar_brentq.
  rewrite (_f_spec sigma lo), (_f_spec sigma hi) by lra. cbn.
  now rewrite Rltb_true.
Qed.

End PositiveBracket.

(** Whenever the root finder succeeds and both divisions are defined, the
    solver returns the root together with [a = b / (1 / mu - 1)]. *)
Lemma solver_returns (mu sigma b : R) (bracket : R * R) :
  root_scalar_brentq (_f sigma) bracket = Ok b ->
  mu <> 0 -> 1 / mu - 1 <> 0 ->
  get_beta_params_from_mu_sigma mu sigma bracket = Ok (b / (1 / mu - 1), b).
Proof.
  intros Hroot Hmu Hden. unfold get_beta_params_from_mu_sigma.
  rewrite Hroot. cbn. rewrite (pydiv_ok 1 mu Hmu). cbn.
  now rewrite (pydiv_ok b _ Hden).
Qed.

Lemma _f_even (sigma : R) : _f (- sigma) = _f sigma.
Proof.
  unfold _f. replace ((- sigma) ^ 2) with (sigma ^ 2) by ring. reflexivity.
Qed.


Lemma f_spec_default_bracket :
  f_spec (1 / 10) (5 / 10) < 0 /\ 0 < f_spec (1 / 10) 100.
Proof. unfold f_spec. split; lra. Qed.


(** C10. The solver is an even function of sigma: sigma enters only through
    sigma squared, so negating it leaves the outcome of the call (the
    returned pair, or the error) unchanged. *)
Theorem beta_solver_even_in_sigma (mu sigma : R) (bracket : R * R) :
  get_beta_params_from_mu_sigma mu (- sigma) bracket
  = get_beta_params_from_mu_sigma mu sigma bracket.
Proof.
  unfold get_beta_params_from_mu_sigma. now rewrite _f_even.
Qed.

Lemma beta_solver_mu_2_returns :
  exists a b,
    get_beta_params_from_mu_sigma 2 (1 / 10) default_bracket = Ok (a, b)
    /\ a < 0.
Proof.
  destruct (root_scalar_brentq_finds (1 / 10) (5 / 10) 100)
    as [b [Hroot [Hin _]]]; try lra.
  { pose proof f_spec_default_bracket. nra. }
  rewrite Rmin_left in Hin by lra.
  exists (b / (1 / 2 - 1)), b. split.
  - unfold default_bracket. apply solver_returns; [exact Hroot | lra | lra].
  - lra.
Qed.

(** Counterexample to C6 as stated: a mean of 2 is outside (0, 1), yet with
    sigma = 0.1 and the default bracket the solver raises nothing and returns
    a pair whose first component is negative. *)
Lemma beta_solver_no_range_check :
  (exists a b,
      get_beta_params_from_mu_sigma 2 (1 / 10) default_bracket = Ok (a, b)
      /\ a < 0)
  /\ ~ (exists e,
      get_beta_params_from_mu_sigma 2 (1 / 10) default_bracket = Raise e).
Proof.
  split; [exact beta_solver_mu_2_returns |].
  destruct beta_solver_mu_2_returns as [a [b [H _]]].
  intros [e He]. rewrite H in He. discriminate.
Qed.

Lemma root_scalar_brentq_sigma_0 (bracket : R * R) :
  root_scalar_brentq (_f 0) bracket = Raise ZeroDivisionError.
Proof.
  destruct bracket as [xa xb]. unfold root_scalar_brentq, _f.
  unfold pydiv at 1.
  replace (0 ^ 2) with 0 by ring. rewrite pydiv_zero.
  destruct (Reqb xa 0); reflexivity.
Qed.

(** C6 (amended). The solver has no range check of its own.  For mu = 0,
    mu = 1 or sigma = 0 it still never returns a result: the call raises, and
    whenever the root search itself succeeds the error is the
    ZeroDivisionError of the division that recovers a. *)
Theorem beta_solver_degenerate_raises (mu sigma : R) (bracket : R * R) :
  mu = 0 \/ mu = 1 \/ sigma = 0 ->
  (exists e, get_beta_params_from_mu_sigma mu sigma bracket = Raise e)
  /\ (forall b, root_scalar_brentq (_f sigma) bracket = Ok b ->
        get_beta_params_from_mu_sigma mu sigma bracket
        = Raise ZeroDivisionError).
Proof.
  intros H.
  assert (Hroot : forall b, root_scalar_brentq (_f sigma) bracket = Ok b ->
            get_beta_params_from_mu_sigma mu sigma bracket
            = Raise ZeroDivisionError).
  { intros b Hb. unfold get_beta_params_from_mu_sigma. rewrite Hb. cbn.
    destruct H as [-> | [-> | ->]].
    - now rewrite pydiv_zero.
    - rewrite pydiv_ok by lra. cbn.
      replace (1 / 1 - 1) with 0 by field. now rewrite pydiv_zero.
    - rewrite root_scalar_brentq_sigma_0 in Hb. discriminate. }
  split; [| exact Hroot].
  destruct (root_scalar_brentq (_f sigma) bracket) as [b | e] eqn:Hb.
  - exists ZeroDivisionError. now apply (Hroot b).
  - exists e. unfold get_beta_params_from_mu_sigma. now rewrite Hb.
Qed.

Lemma beta_solver_degenerate_raises_witness :
  (exists e,
      get_beta_params_from_mu_sigma 0 (1 / 10) default_bracket = Raise e)
  /\ (forall b, root_scalar_brentq (_f (1 / 10)) default_bracket = Ok b ->
        get_beta_params_from_mu_sigma 0 (1 / 10) default_bracket
        = Raise ZeroDivisionError).
Proof.
  apply (beta_solver_degenerate_raises 0 (1 / 10) default_bracket).
  left. reflexivity.
Defined.

(** ** Sorted distinct values *)

Lemma insert_uniq_In (v y : R) (l : list R) :
  In y (insert_uniq v l) <-> y = v \/ In y l.
Proof.
  induction l as [| h t IH]; cbn.
  - intuition.
  - unfold Rltb. destruct (Rlt_dec v h) as [Hvh | Hvh]; cbn.
    + intuition.
    + destruct (Rlt_dec h v) as [Hhv | Hhv]; cbn.
      * rewrite IH. intuition.
      * assert (v = h) by lra. subst. intuition.
Qed.

Lemma insert_uniq_sorted (v : R) (l : list R) :
  StronglySorted Rlt l -> StronglySorted Rlt (insert_uniq v l).
Proof.
  induction 1 as [| h t Hs IH Hall]; cbn.
  - constructor; constructor.
  - unfold Rltb. destruct (Rlt_dec v h) as [Hvh | Hvh].
    + constructor; [constructor; assumption |].
      constructor; [exact Hvh |].
      rewrite Forall_forall in *. intros y Hy. specialize (Hall y Hy). lra.
    + destruct (Rlt_dec h v) as [Hhv | Hhv].
      * constructor; [exact IH |].
        rewrite Forall_forall in *. intros y Hy.
        apply insert_uniq_In in Hy. destruct Hy as [-> | Hy]; auto.
      * constructor; assumption.
Qed.

Lemma unique_In (l : list R) (y : R) : In y (unique l) <-> In y l.
Proof.
  induction l as [| h t IH]; cbn.
  - tauto.
  - rewrite insert_uniq_In, IH. intuition.
Qed.

Lemma unique_sorted (l : list R) : StronglySorted Rlt (unique l).
Proof.
  induction l as [| h t IH]; cbn.
  - constructor.
  - now apply insert_uniq_sorted.
Qed.

Lemma unique_nonempty (l : list R) : l <> [] -> unique l <> [].
Proof.
  destruct l as [| h t]; [congruence |].
  intros _ Hnil.
  assert (Hin : In h (unique (h :: t))) by (apply unique_In; now left).
  rewrite Hnil in Hin. exact Hin.
Qed.

(** A strictly increasing list is determined by its set of elements. *)
Lemma sorted_same_elements (l m : list R) :
  StronglySorted Rlt l -> StronglySorted Rlt m ->
  (forall v, In v l <-> In v m) -> l = m.
Proof.
  intros Hl. revert m.
  induction Hl as [| a l Hl IH Ha]; intros m Hm Hsame.
  - destruct m as [| b m]; [reflexivity |].
    exfalso. apply (Hsame b). now left.
  - destruct Hm as [| b m Hm Hb].
    + exfalso. apply (Hsame a). now left.
    + rewrite Forall_forall in Ha, Hb.
      assert (Hab : a = b).
      { assert (H1 : In a (b :: m)) by (apply Hsame; now left).
        assert (H2 : In b (a :: l)) by (apply Hsame; now left).
        destruct H1 as [H1 | H1]; [now symmetry |].
        destruct H2 as [H2 | H2]; [assumption |].
        specialize (Ha b H2). specialize (Hb a H1). lra. }
      subst b. f_equal. apply IH; [exact Hm |].
      intros v. split; intros Hv.
      * assert (H1 : In v (a :: m)) by (apply Hsame; now right).
        destruct H1 as [H1 | H1]; [| exact H1].
        subst v. specialize (Ha a Hv). lra.
      * assert (H1 : In v (a :: l)) by (apply Hsame; now right).
        destruct H1 as [H1 | H1]; [| exact H1].
        subst v. specialize (Hb a Hv). lra.
Qed.

Lemma unique_app_comm (p q : list R) : unique (p ++ q) = unique (q ++ p).
Proof.
  apply sorted_same_elements; try apply unique_sorted.
  intros v. rewrite !unique_In, !in_app_iff. tauto.
Qed.

Lemma last_indep {A : Type} (t : list A) (c a b : A) :
  last (c :: t) a = last (c :: t) b.
Proof.
  revert c. induction t as [| d t IH]; intros c; [reflexivity |].
  change (last (c :: d :: t) a) with (last (d :: t) a).
  change (last (c :: d :: t) b) with (last (d :: t) b).
  apply IH.
Qed.

Lemma last_cons {A : Type} (t : list A) (a b : A) :
  last (b :: t) a = last t b.
Proof.
  destruct t as [| c t]; [reflexivity |].
  change (last (b :: c :: t) a) with (last (c :: t) a).
  apply last_indep.
Qed.

Lemma sorted_le_last (a : R) (l : list R) :
  StronglySorted Rlt (a :: l) ->
  forall v, In v (a :: l) -> v <= last l a.
Proof.
  revert a. induction l as [| b l IH]; intros a Hs v Hv.
  - destruct Hv as [-> | []]. cbn. lra.
  - inversion Hs as [| ? ? Hs' Hall]; subst.
    rewrite last_cons.
    destruct Hv as [-> | Hv].
    + inversion Hall as [| ? ? Hvb _]; subst.
      specialize (IH b Hs' b (or_introl eq_refl)). lra.
    + now apply IH.
Qed.

(** ** Counting samples *)

Lemma count_le_nonneg (s : list R) (v : R) : (0 <= count_le s v)%Z.
Proof. unfold count_le. lia. Qed.

Lemma count_le_mono (s : list R) (v w : R) :
  v <= w -> (count_le s v <= count_le s w)%Z.
Proof.
  intros Hvw. unfold count_le. apply inj_le.
  induction s as [| h t IH]; cbn; [lia |].
  destruct (Rle_dec h v) as [Hv | Hv];
    [rewrite (Rleb_true h v Hv) | rewrite (Rleb_false h v Hv)];
    (destruct (Rle_dec h w) as [Hw | Hw];
     [rewrite (Rleb_true h w Hw) | rewrite (Rleb_false h w Hw)]);
    cbn [length]; try lia; lra.
Qed.

Lemma count_le_all (s : list R) (v : R) :
  (forall u, In u s -> u <= v) -> count_le s v = Z.of_nat (length s).
Proof.
  intros Hall. unfold count_le. f_equal.
  induction s as [| h t IH]; cbn; [reflexivity |].
  rewrite Rleb_true by (apply Hall; now left). cbn.
  f_equal. apply IH. intros u Hu. apply Hall. now right.
Qed.

Lemma count_le_nil (v : R) : count_le [] v = 0%Z.
Proof. reflexivity. Qed.

(** ** Consecutive differences *)

Lemma diff_length (l : list Z) : length (diff l) = pred (length l).
Proof.
  induction l as [| a [| b t] IH]; cbn in *; [reflexivity | reflexivity |].
  now rewrite IH.
Qed.

Lemma diff_nth (l : list Z) (i : nat) :
  (S i < length l)%nat ->
  nth i (diff l) 0%Z = (nth (S i) l 0 - nth i l 0)%Z.
Proof.
  revert i. induction l as [| a [| b t] IH]; intros i Hi; cbn in Hi; try lia.
  destruct i as [| i]; [reflexivity |].
  change (diff (a :: b :: t)) with ((b - a)%Z :: diff (b :: t)).
  cbn [nth]. rewrite IH by (cbn; lia). reflexivity.
Qed.

Lemma Zsum_diff (a : Z) (l : list Z) :
  Zsum (diff (a :: l)) = (last l a - a)%Z.
Proof.
  revert a. induction l as [| b t IH]; intros a.
  - cbn. lia.
  - change (diff (a :: b :: t)) with ((b - a)%Z :: diff (b :: t)).
    cbn [Zsum fold_right]. fold (Zsum (diff (b :: t))). rewrite IH.
    rewrite last_cons. lia.
Qed.

Lemma diff_nonneg (s : list R) (a : R) (l : list R) :
  StronglySorted Rlt (a :: l) ->
  Forall (fun c => (0 <= c)%Z) (diff (map (count_le s) (a :: l))).
Proof.
  revert a. induction l as [| b t IH]; intros a Hs.
  - constructor.
  - inversion Hs as [| ? ? Hs' Hall]; subst.
    inversion Hall as [| ? ? Hab _]; subst.
    change (map (count_le s) (a :: b :: t))
      with (count_le s a :: map (count_le s) (b :: t)).
    change (diff (count_le s a :: map (count_le s) (b :: t)))
      with ((count_le s b - count_le s a)%Z :: diff (map (count_le s) (b :: t))).
    constructor; [| now apply IH].
    assert (Hle : a <= b) by lra.
    pose proof (count_le_mono s a b Hle). lia.
Qed.

(** ** Arithmetic on finite values *)

Lemma fdiv_fin (a b : R) : b <> 0 -> fdiv (Fin a) (Fin b) = Fin (a / b).
Proof. intros Hb. cbn. now rewrite Reqb_false. Qed.

Lemma fdiv_zero_zero : fdiv (Fin 0) (Fin 0) = NaN.
Proof.
  cbn. rewrite Reqb_true by reflexivity.
  now rewrite !Rltb_false by lra.
Qed.

Lemma fsqrt_fin (a : R) : 0 <= a -> fsqrt (Fin a) = Fin (sqrt a).
Proof. intros Ha. cbn. now rewrite Rltb_false by lra. Qed.

Lemma nth_map_in {A B : Type} (f : A -> B) (l : list A) (i : nat)
  (dA : A) (dB : B) :
  (i < length l)%nat -> nth i (map f l) dB = f (nth i l dA).
Proof.
  intros Hi. rewrite (nth_indep _ dB (f dA)) by (rewrite length_map; exact Hi).
  apply map_nth.
Qed.

Lemma Rsum_map_scale {A : Type} (f : A -> R) (c : R) (l : list A) :
  Rsum (map (fun v => f v / c) l) = Rsum (map f l) / c.
Proof.
  induction l as [| h t IH]; cbn.
  - unfold Rdiv. ring.
  - fold (Rsum (map (fun v => f v / c) t)). fold (Rsum (map f t)).
    rewrite IH. unfold Rdiv. ring.
Qed.

Lemma Rsum_IZR (l : list Z) : Rsum (map IZR l) = IZR (Zsum l).
Proof.
  induction l as [| h t IH]; cbn; [reflexivity |].
  fold (Rsum (map IZR t)). fold (Zsum t). rewrite IH, plus_IZR. reflexivity.
Qed.

Lemma Rsum_nonneg (l : list R) : Forall (fun m => 0 <= m) l -> 0 <= Rsum l.
Proof.
  induction 1 as [| h t Hh _ IH]; cbn; [lra |].
  fold (Rsum t). lra.
Qed.

(** ** The discrete mass estimator *)

(** The vector that [_pmf] normalises is the vector of the specification. *)
Lemma pmf_raw_is_mass_count (s : list R) (a : R) (l : list R) :
  count_le s a :: diff (map (count_le s) (a :: l))
  = map (mass_count s (a :: l)) (seq 0 (length (a :: l))).
Proof.
  set (x := a :: l).
  apply (nth_ext _ _ 0%Z 0%Z).
  - cbn [length]. rewrite diff_length, !length_map, length_seq. reflexivity.
  - intros i Hi.
    assert (Hix : (i < length x)%nat).
    { cbn [length] in Hi. rewrite diff_length, length_map in Hi.
      subst x. cbn [length] in *. lia. }
    rewrite (nth_map_in (mass_count s x) _ i 0%nat) by (rewrite length_seq; exact Hix).
    rewrite seq_nth by exact Hix. cbn [Nat.add].
    destruct i as [| j]; [reflexivity |].
    cbn [nth mass_count].
    rewrite diff_nth by (rewrite length_map; exact Hix).
    rewrite (nth_map_in (count_le s) x (S j) 0) by exact Hix.
    rewrite (nth_map_in (count_le s) x j 0) by lia.
    reflexivity.
Qed.

Lemma pmf_raw_total (s : list R) (a : R) (l : list R) :
  Zsum (count_le s a :: diff (map (count_le s) (a :: l)))
  = count_le s (last l a).
Proof.
  cbn [Zsum fold_right map]. fold (Zsum (diff (count_le s a :: map (count_le s) l))).
  rewrite Zsum_diff.
  replace (last (map (count_le s) l) (count_le s a)) with (count_le s (last l a)).
  - lia.
  - clear. revert a. induction l as [| b t IH]; intros a; [reflexivity |].
    change (map (count_le s) (b :: t)) with (count_le s b :: map (count_le s) t).
    rewrite !last_cons. apply IH.
Qed.

(** On a strictly increasing grid that contains every sample, [_pmf]
    returns finite masses: the counts of the specification divided by their
    total, which is the number of samples. *)
Lemma _pmf_on_grid (s x : list R) :
  StronglySorted Rlt x -> (forall u, In u s -> In u x) -> s <> [] ->
  let raw := map (mass_count s x) (seq 0 (length x)) in
  Zsum raw = Z.of_nat (length s)
  /\ Forall (fun c => (0 <= c)%Z) raw
  /\ _pmf s x = Ok (map Fin (map (fun c => IZR c / IZR (Zsum raw)) raw)).
Proof.
  intros Hsorted Hin Hne raw.
  destruct x as [| a l].
  { destruct s as [| u s]; [congruence |]. destruct (Hin u). now left. }
  assert (Hraw : count_le s a :: diff (map (count_le s) (a :: l)) = raw)
    by apply pmf_raw_is_mass_count.
  assert (Htotal : Zsum raw = Z.of_nat (length s)).
  { rewrite <- Hraw, pmf_raw_total. apply count_le_all.
    intros u Hu. apply sorted_le_last; [exact Hsorted | now apply Hin]. }
  split; [exact Htotal |]. split.
  - rewrite <- Hraw. constructor; [apply count_le_nonneg |].
    now apply diff_nonneg.
  - unfold _pmf.
    change (map (count_le s) (a :: l)) with (count_le s a :: map (count_le s) l).
    cbv beta iota zeta.
    change (count_le s a :: map (count_le s) l) with (map (count_le s) (a :: l)).
    rewrite Hraw. f_equal. rewrite map_map. apply map_ext.
    intros c. apply fdiv_fin.
    rewrite Htotal. apply not_0_IZR.
    destruct s; [congruence | cbn [length]; lia].
Qed.

Lemma pmf_masses_probability (raw : list Z) :
  Zsum raw <> 0%Z -> Forall (fun c => (0 <= c)%Z) raw ->
  probability_vector (map (fun c => IZR c / IZR (Zsum raw)) raw).
Proof.
  intros Hnz Hpos.
  assert (Hsum : (0 <= Zsum raw)%Z).
  { clear Hnz. induction Hpos as [| h t Hh _ IH]; cbn; [lia |].
    fold (Zsum t). lia. }
  assert (HT : 0 < IZR (Zsum raw)) by (apply IZR_lt; lia).
  split.
  - rewrite Forall_forall in *. intros m Hm.
    apply in_map_iff in Hm. destruct Hm as [c [<- Hc]].
    apply Rmult_le_pos; [| left; now apply Rinv_0_lt_compat].
    apply IZR_le. now apply Hpos.
  - rewrite (Rsum_map_scale IZR), Rsum_IZR. field. lra.
Qed.

Lemma _pmf_normalised (s x : list R) :
  StronglySorted Rlt x -> (forall u, In u s -> In u x) -> s <> [] ->
  exists masses,
    _pmf s x = Ok (map Fin masses)
    /\ normalised_masses s x masses
    /\ probability_vector masses.
Proof.
  intros Hsorted Hin Hne.
  destruct (_pmf_on_grid s x Hsorted Hin Hne) as [Htotal [Hpos Hpmf]].
  set (raw := map (mass_count s x) (seq 0 (length x))) in *.
  assert (Hnz : Zsum raw <> 0%Z).
  { rewrite Htotal. destruct s; [congruence | cbn [length]; lia]. }
  exists (map (fun c => IZR c / IZR (Zsum raw)) raw).
  split; [exact Hpmf |]. split.
  - unfold normalised_masses. fold raw. cbv zeta.
    split; [exact Hnz |]. split.
    + unfold raw. now rewrite !length_map, length_seq.
    + intros i Hi.
      rewrite (nth_map_in _ raw i 0%Z)
        by (unfold raw; rewrite length_map, length_seq; exact Hi).
      unfold raw at 1.
      rewrite (nth_map_in _ _ i 0%nat) by (rewrite length_seq; exact Hi).
      now rewrite seq_nth by exact Hi.
  - now apply pmf_masses_probability.
Qed.

Lemma discrete_estimators (p q : list R) :
  p <> [] -> q <> [] ->
  exists P Q,
    _pmf p (unique (p ++ q)) = Ok (map Fin P)
    /\ _pmf q (unique (p ++ q)) = Ok (map Fin Q)
    /\ normalised_masses p (unique (p ++ q)) P
    /\ normalised_masses q (unique (p ++ q)) Q
    /\ probability_vector P /\ probability_vector Q.
Proof.
  intros Hp Hq.
  destruct (_pmf_normalised p (unique (p ++ q))) as [P [HP [HnP HvP]]];
    [apply unique_sorted
    | intros u Hu; apply unique_In, in_app_iff; now left | exact Hp |].
  destruct (_pmf_normalised q (unique (p ++ q))) as [Q [HQ [HnQ HvQ]]];
    [apply unique_sorted
    | intros u Hu; apply unique_In, in_app_iff; now right | exact Hq |].
  exists P, Q. tauto.
Qed.



(** ** The continuous density estimator *)

Lemma map2_map_same {A B C D : Type} (f : B -> C -> D) (g : A -> B)
  (h : A -> C) (l : list A) :
  map2 f (map g l) (map h l) = map (fun v => f (g v) (h v)) l.
Proof.
  unfold map2. induction l as [| a l IH]; cbn; [reflexivity |].
  now rewrite IH.
Qed.

Lemma kernel_peak_pos (d : R) : 0 < exp (- (d ^ 2) / 2) / sqrt (2 * PI).
Proof.
  apply Rdiv_lt_0_compat; [apply exp_pos |].
  apply sqrt_lt_R0. pose proof PI_RGT_0. lra.
Qed.

Lemma norm_pdf_nonneg (loc v : R) : 0 <= norm_pdf loc v.
Proof.
  unfold norm_pdf. destruct (Rltb _ _); [lra |].
  left. apply kernel_peak_pos.
Qed.

(** Within the underflow distance the kernel is the Gaussian density, a
    positive number; beyond it the kernel is zero. *)
Lemma norm_pdf_near (loc v : R) :
  Rabs (v - loc) <= underflow_distance ->
  norm_pdf loc v = exp (- ((v - loc) ^ 2) / 2) / sqrt (2 * PI)
  /\ 0 < norm_pdf loc v.
Proof.
  intros H. unfold norm_pdf. rewrite Rltb_false by lra.
  split; [reflexivity | apply kernel_peak_pos].
Qed.

Lemma norm_pdf_far (loc v : R) :
  underflow_distance < Rabs (v - loc) -> norm_pdf loc v = 0.
Proof. intros H. unfold norm_pdf. now rewrite Rltb_true. Qed.

Lemma fold_left_Rplus {A : Type} (g : A -> R) (l : list A) (a0 : R) :
  fold_left (fun a xj => a + g xj) l a0 = a0 + Rsum (map g l).
Proof.
  revert a0. induction l as [| h t IH]; intros a0; cbn.
  - ring.
  - rewrite IH. fold (Rsum (map g t)). ring.
Qed.

Lemma density_fold (x rest : list R) (g : R -> R) :
  fold_left (fun acc xj => map2 Rplus acc (map (norm_pdf xj) x)) rest (map g x)
  = map (fun v => fold_left (fun a xj => a + norm_pdf xj v) rest (g v)) x.
Proof.
  revert g. induction rest as [| xj rest IH]; intros g; cbn [fold_left].
  - reflexivity.
  - rewrite map2_map_same. apply (IH (fun v => g v + norm_pdf xj v)).
Qed.

Lemma density_is_kernel_sum (xi : R) (rest x : list R) :
  fold_left (fun acc xj => map2 Rplus acc (map (norm_pdf xj) x)) rest
            (map (fun v => 0 + norm_pdf xi v) x)
  = map (kernel_sum (xi :: rest)) x.
Proof.
  rewrite density_fold. apply map_ext. intros v.
  rewrite (fold_left_Rplus (fun xj => norm_pdf xj v)).
  unfold kernel_sum. cbn. fold (Rsum (map (fun xj => norm_pdf xj v) rest)).
  ring.
Qed.

Lemma kernel_sum_nonneg (s : list R) (v : R) : 0 <= kernel_sum s v.
Proof.
  unfold kernel_sum. apply Rsum_nonneg, Forall_forall. intros m Hm.
  apply in_map_iff in Hm. destruct Hm as [xj [<- _]].
  apply norm_pdf_nonneg.
Qed.

Lemma Rsum_pos_in (l : list R) (m : R) :
  Forall (fun c => 0 <= c) l -> In m l -> 0 < m -> 0 < Rsum l.
Proof.
  intros Hall. induction Hall as [| h t Hh Ht IH]; intros Hin Hm.
  - destruct Hin.
  - cbn. fold (Rsum t). pose proof (Rsum_nonneg t Ht) as Hs.
    destruct Hin as [-> | Hin]; [lra |].
    specialize (IH Hin Hm). lra.
Qed.

Lemma Rsum_zero_all (l : list R) :
  Forall (fun c => 0 <= c) l -> Rsum l = 0 -> Forall (fun c => c = 0) l.
Proof.
  intros Hall. induction Hall as [| h t Hh Ht IH]; intros Hs.
  - constructor.
  - cbn in Hs. fold (Rsum t) in Hs. pose proof (Rsum_nonneg t Ht) as Hn.
    constructor; [lra |]. apply IH. lra.
Qed.

Lemma Rsum_all_zero (l : list R) :
  Forall (fun c => c = 0) l -> Rsum l = 0.
Proof.
  induction 1 as [| h t Hh _ IH]; cbn; [reflexivity |].
  fold (Rsum t). lra.
Qed.

Lemma kernel_sum_near (s : list R) (u v : R) :
  In u s -> Rabs (v - u) <= underflow_distance -> 0 < kernel_sum s v.
Proof.
  intros Hu Hd. unfold kernel_sum.
  apply (Rsum_pos_in _ (norm_pdf u v)).
  - apply Forall_forall. intros m Hm.
    apply in_map_iff in Hm. destruct Hm as [xj [<- _]].
    apply norm_pdf_nonneg.
  - apply in_map_iff. exists u. split; [reflexivity | exact Hu].
  - now apply norm_pdf_near.
Qed.

Lemma kernel_sum_far (s : list R) (v : R) :
  (forall u, In u s -> underflow_distance < Rabs (v - u)) ->
  kernel_sum s v = 0.
Proof.
  intros H. unfold kernel_sum. apply Rsum_all_zero, Forall_forall.
  intros m Hm. apply in_map_iff in Hm. destruct Hm as [u [<- Hu]].
  apply norm_pdf_far. now apply H.
Qed.

Lemma kernel_total_nonneg (s x : list R) : 0 <= Rsum (map (kernel_sum s) x).
Proof.
  apply Rsum_nonneg, Forall_forall. intros m Hm.
  apply in_map_iff in Hm. destruct Hm as [v [<- _]].
  apply kernel_sum_nonneg.
Qed.

(** The total of the kernel sums over the grid is positive exactly when the
    kernel of some sample reaches some grid point. *)
Lemma kernel_total_reaches (s x : list R) :
  kernel_reaches s x -> 0 < Rsum (map (kernel_sum s) x).
Proof.
  intros [u [g [Hu [Hg Hd]]]].
  apply (Rsum_pos_in _ (kernel_sum s g)).
  - apply Forall_forall. intros m Hm.
    apply in_map_iff in Hm. destruct Hm as [v [<- _]].
    apply kernel_sum_nonneg.
  - apply in_map_iff. exists g. split; [reflexivity | exact Hg].
  - now apply (kernel_sum_near s u g).
Qed.

Lemma kernel_total_far (s x : list R) :
  ~ kernel_reaches s x -> Rsum (map (kernel_sum s) x) = 0.
Proof.
  intros H. apply Rsum_all_zero, Forall_forall.
  intros m Hm. apply in_map_iff in Hm. destruct Hm as [g [<- Hg]].
  apply kernel_sum_far. intros u Hu.
  destruct (Rlt_dec underflow_distance (Rabs (g - u))) as [Hlt | Hge];
    [exact Hlt |].
  exfalso. apply H. exists u, g. split; [exact Hu |]. split; [exact Hg | lra].
Qed.

Lemma kernel_total_pos_reaches (s x : list R) :
  0 < Rsum (map (kernel_sum s) x) -> kernel_reaches s x.
Proof.
  intros HT. apply NNPP. intros H.
  rewrite (kernel_total_far s x H) in HT. lra.
Qed.

Lemma _estimate_pdf_kernel (xi : R) (rest x : list R) :
  _estimate_pdf (xi :: rest) x
  = Ok (map (fun d => fdiv (Fin d)
                        (Fin (Rsum (map (kernel_sum (xi :: rest)) x))))
            (map (kernel_sum (xi :: rest)) x)).
Proof.
  unfold _estimate_pdf. cbv zeta. now rewrite density_is_kernel_sum.
Qed.

(** When the total of the kernel sums is positive, the estimate is the
    normalised density, a probability vector. *)
Lemma _estimate_pdf_normalised (s x : list R) :
  0 < Rsum (map (kernel_sum s) x) ->
  exists dens,
    _estimate_pdf s x = Ok (map Fin dens)
    /\ normalised_density s x dens
    /\ probability_vector dens.
Proof.
  intros HT.
  set (T := Rsum (map (kernel_sum s) x)) in *.
  exists (map (fun d => d / T) (map (kernel_sum s) x)).
  split; [| split].
  - destruct s as [| xi rest].
    + exfalso. unfold T in HT.
      rewrite (kernel_total_far [] x) in HT; [lra |].
      intros [u [g [[] _]]].
    + rewrite _estimate_pdf_kernel. fold T.
      apply f_equal. rewrite (map_map (fun d => d / T) Fin).
      apply map_ext. intros d.
      apply fdiv_fin. lra.
  - unfold normalised_density. fold T. cbv zeta.
    split; [lra |]. split; [now rewrite !length_map |].
    intros i Hi.
    rewrite (nth_map_in _ _ i 0) by (rewrite length_map; exact Hi).
    now rewrite (nth_map_in _ _ i 0) by exact Hi.
  - split.
    + apply Forall_forall. intros m Hm.
      apply in_map_iff in Hm. destruct Hm as [d [<- Hd]].
      apply in_map_iff in Hd. destruct Hd as [v [<- _]].
      pose proof (kernel_sum_nonneg s v) as Hk.
      apply Rmult_le_pos; [exact Hk |].
      left. now apply Rinv_0_lt_compat.
    + rewrite (Rsum_map_scale (fun d => d)), map_id. fold T. field. lra.
Qed.

(** When the total underflows to zero, every kernel sum is zero and the
    division [density / density.sum()] is 0/0 at every grid point: the
    estimate is a vector of [nan]. *)
Lemma _estimate_pdf_underflow (s x : list R) :
  s <> [] ->
  Rsum (map (kernel_sum s) x) = 0 ->
  _estimate_pdf s x = Ok (map (fun _ => NaN) x).
Proof.
  intros Hs HT. destruct s as [| xi rest]; [congruence |].
  rewrite _estimate_pdf_kernel, HT. apply f_equal.
  rewrite map_map. apply map_ext_in. intros g Hg.
  assert (Hall : Forall (fun c => c = 0) (map (kernel_sum (xi :: rest)) x)).
  { apply Rsum_zero_all; [| exact HT].
    apply Forall_forall. intros m Hm.
    apply in_map_iff in Hm. destruct Hm as [v [<- _]].
    apply kernel_sum_nonneg. }
  rewrite Forall_forall in Hall.
  rewrite (Hall (kernel_sum (xi :: rest) g)) by (now apply in_map).
  apply fdiv_zero_zero.
Qed.

Lemma _estimate_pdf_cases (s x : list R) :
  s <> [] ->
  (Rsum (map (kernel_sum s) x) <> 0
   /\ exists dens,
        _estimate_pdf s x = Ok (map Fin dens)
        /\ normalised_density s x dens
        /\ probability_vector dens)
  \/ (Rsum (map (kernel_sum s) x) = 0
      /\ _estimate_pdf s x = Ok (map (fun _ => NaN) x)).
Proof.
  intros Hs. pose proof (kernel_total_nonneg s x) as Hn.
  destruct (Req_dec_T (Rsum (map (kernel_sum s) x)) 0) as [H | H].
  - right. split; [exact H |]. now apply _estimate_pdf_underflow.
  - left. split; [exact H |]. apply _estimate_pdf_normalised. lra.
Qed.

Lemma map_Fin_inj (l m : list R) : map Fin l = map Fin m -> l = m.
Proof.
  revert m. induction l as [| a l IH]; intros [| b m] H;
    try discriminate; [reflexivity |].
  cbn in H. injection H as Hab Hlm. subst. f_equal. now apply IH.
Qed.

Lemma map_Fin_not_nan {A : Type} (x : list A) (l : list R) :
  x <> [] -> map (fun _ => NaN) x <> map Fin l.
Proof.
  intros Hx H. destruct x as [| a x]; [congruence |].
  destruct l; discriminate.
Qed.

(** *** The grid *)

Lemma linspace_length (start stop : R) (num : nat) :
  length (linspace start stop num) = num.
Proof. unfold linspace. now rewrite length_map, length_seq. Qed.


Lemma INR_99 : INR (100 - 1) = 99.
Proof. rewrite INR_IZR_INZ. reflexivity. Qed.

Lemma fold_left_Rmin_spec (t : list R) (h : R) :
  In (fold_left Rmin t h) (h :: t)
  /\ forall v, In v (h :: t) -> fold_left Rmin t h <= v.
Proof.
  revert h. induction t as [| b t IH]; intros h; cbn [fold_left].
  - split; [now left |]. intros v [-> | []]. lra.
  - destruct (IH (Rmin h b)) as [Hin Hle]. split.
    + destruct Hin as [Hin | Hin].
      * rewrite <- Hin. unfold Rmin. destruct (Rle_dec h b); cbn; auto.
      * right. now right.
    + intros v [-> | [-> | Hv]].
      * pose proof (Hle (Rmin v b) (or_introl eq_refl)).
        pose proof (Rmin_l v b). lra.
      * pose proof (Hle (Rmin h v) (or_introl eq_refl)).
        pose proof (Rmin_r h v). lra.
      * apply Hle. now right.
Qed.

Lemma fold_left_Rmax_spec (t : list R) (h : R) :
  In (fold_left Rmax t h) (h :: t)
  /\ forall v, In v (h :: t) -> v <= fold_left Rmax t h.
Proof.
  revert h. induction t as [| b t IH]; intros h; cbn [fold_left].
  - split; [now left |]. intros v [-> | []]. lra.
  - destruct (IH (Rmax h b)) as [Hin Hle]. split.
    + destruct Hin as [Hin | Hin].
      * rewrite <- Hin. unfold Rmax. destruct (Rle_dec h b); cbn; auto.
      * right. now right.
    + intros v [-> | [-> | Hv]].
      * pose proof (Hle (Rmax v b) (or_introl eq_refl)).
        pose proof (Rmax_l v b). lra.
      * pose proof (Hle (Rmax h v) (or_introl eq_refl)).
        pose proof (Rmax_r h v). lra.
      * apply Hle. now right.
Qed.

Lemma array_min_spec (a : list R) :
  a <> [] ->
  exists m, array_min a = Ok m /\ In m a /\ forall v, In v a -> m <= v.
Proof.
  destruct a as [| h t]; [congruence |]. intros _.
  exists (fold_left Rmin t h). split; [reflexivity |].
  apply fold_left_Rmin_spec.
Qed.

Lemma array_max_spec (a : list R) :
  a <> [] ->
  exists m, array_max a = Ok m /\ In m a /\ forall v, In v a -> v <= m.
Proof.
  destruct a as [| h t]; [congruence |]. intros _.
  exists (fold_left Rmax t h). split; [reflexivity |].
  apply fold_left_Rmax_spec.
Qed.

Lemma linspace_100_nonempty (start stop : R) : linspace start stop 100 <> [].
Proof.
  intros H. pose proof (linspace_length start stop 100) as Hl.
  rewrite H in Hl. discriminate.
Qed.

Lemma continuous_grid (p q : list R) :
  p <> [] -> q <> [] ->
  exists minx maxx,
    (In minx (p ++ q) /\ forall v, In v (p ++ q) -> minx <= v)
    /\ (In maxx (p ++ q) /\ forall v, In v (p ++ q) -> v <= maxx)
    /\ probability_functions p q false
       = (P <- _estimate_pdf p (linspace minx maxx 100) ;;
          Q <- _estimate_pdf q (linspace minx maxx 100) ;;
          Ok (P, Q)).
Proof.
  intros Hp Hq.
  destruct (array_min_spec p Hp) as [pmin [Hpmin [Hpmin_in Hpmin_le]]].
  destruct (array_min_spec q Hq) as [qmin [Hqmin [Hqmin_in Hqmin_le]]].
  destruct (array_max_spec p Hp) as [pmax [Hpmax [Hpmax_in Hpmax_le]]].
  destruct (array_max_spec q Hq) as [qmax [Hqmax [Hqmax_in Hqmax_le]]].
  exists (Rmin pmin qmin), (Rmax pmax qmax).
  split; [| split].
  - split.
    + apply in_app_iff. unfold Rmin.
      destruct (Rle_dec pmin qmin); [now left | now right].
    + intros v Hv. apply in_app_iff in Hv.
      pose proof (Rmin_l pmin qmin). pose proof (Rmin_r pmin qmin).
      destruct Hv as [Hv | Hv];
        [specialize (Hpmin_le v Hv) | specialize (Hqmin_le v Hv)]; lra.
  - split.
    + apply in_app_iff. unfold Rmax.
      destruct (Rle_dec pmax qmax); [now right | now left].
    + intros v Hv. apply in_app_iff in Hv.
      pose proof (Rmax_l pmax qmax). pose proof (Rmax_r pmax qmax).
      destruct Hv as [Hv | Hv];
        [specialize (Hpmax_le v Hv) | specialize (Hqmax_le v Hv)]; lra.
  - unfold probability_functions.
    rewrite Hpmin, Hqmin, Hpmax, Hqmax. reflexivity.
Qed.

Lemma _estimate_pdf_outcome (s x : list R) :
  s <> [] ->
  exists A,
    _estimate_pdf s x = Ok A /\ length A = length x /\ density_or_nan s x A.
Proof.
  intros Hs.
  destruct (_estimate_pdf_cases s x Hs)
    as [[Hr [dens [HA [Hn Hv]]]] | [Hr HA]].
  - exists (map Fin dens). split; [exact HA |]. split.
    + rewrite length_map. apply Hn.
    + left. split; [exact Hr |]. exists dens. tauto.
  - exists (map (fun _ => NaN) x). split; [exact HA |].
    split; [apply length_map |]. right. split; [exact Hr | reflexivity].
Qed.

Lemma density_or_nan_fin (s x : list R) (P : list R) :
  x <> [] ->
  density_or_nan s x (map Fin P) ->
  normalised_density s x P /\ probability_vector P.
Proof.
  intros Hx [[Hr [dens [HA [Hn Hv]]]] | [_ HA]].
  - apply map_Fin_inj in HA. subst. tauto.
  - symmetry in HA. now apply map_Fin_not_nan in HA.
Qed.

Lemma density_or_nan_reached (s x : list R) (A : list float64) :
  kernel_reaches s x ->
  density_or_nan s x A ->
  exists dens,
    A = map Fin dens /\ normalised_density s x dens
    /\ probability_vector dens.
Proof.
  intros Hr [[_ H] | [HT _]]; [exact H |].
  pose proof (kernel_total_reaches s x Hr). lra.
Qed.

Lemma continuous_estimators (p q : list R) :
  p <> [] -> q <> [] ->
  exists minx maxx A B,
    (In minx (p ++ q) /\ forall v, In v (p ++ q) -> minx <= v)
    /\ (In maxx (p ++ q) /\ forall v, In v (p ++ q) -> v <= maxx)
    /\ probability_functions p q false = Ok (A, B)
    /\ _estimate_pdf p (linspace minx maxx 100) = Ok A
    /\ _estimate_pdf q (linspace minx maxx 100) = Ok B
    /\ length A = 100%nat
    /\ length B = 100%nat
    /\ density_or_nan p (linspace minx maxx 100) A
    /\ density_or_nan q (linspace minx maxx 100) B.
Proof.
  intros Hp Hq.
  destruct (continuous_grid p q Hp Hq) as [minx [maxx [Hmin [Hmax Hpf]]]].
  destruct (_estimate_pdf_outcome p (linspace minx maxx 100) Hp)
    as [A [HA [HlA HoA]]].
  destruct (_estimate_pdf_outcome q (linspace minx maxx 100) Hq)
    as [B [HB [HlB HoB]]].
  rewrite linspace_length in HlA, HlB.
  exists minx, maxx, A, B.
  split; [exact Hmin |]. split; [exact Hmax |].
  split; [| tauto].
  rewrite Hpf, HA, HB. reflexivity.
Qed.



(** ** Both estimators return two vectors of the same length *)

Lemma probability_functions_ok (p q : list R) (discrete : bool) :
  p <> [] -> q <> [] ->
  exists A B,
    probability_functions p q discrete = Ok (A, B) /\ length A = length B.
Proof.
  intros Hp Hq. destruct discrete.
  - destruct (discrete_estimators p q Hp Hq)
      as [P [Q [HP [HQ [HnP [HnQ _]]]]]].
    exists (map Fin P), (map Fin Q). split.
    + unfold probability_functions. rewrite HP, HQ. reflexivity.
    + rewrite !length_map.
      destruct HnP as [_ [HlP _]], HnQ as [_ [HlQ _]]. congruence.
  - destruct (continuous_estimators p q Hp Hq)
      as [minx [maxx [A [B [_ [_ [Hpf [_ [_ [HlA [HlB _]]]]]]]]]]].
    exists A, B. split; [exact Hpf | congruence].
Qed.

(** The discrete estimator always gives two probability vectors. *)
Lemma probability_functions_discrete (p q : list R) :
  p <> [] -> q <> [] ->
  exists P Q,
    probability_functions p q true = Ok (map Fin P, map Fin Q)
    /\ length P = length Q
    /\ probability_vector P
    /\ probability_vector Q.
Proof.
  intros Hp Hq.
  destruct (discrete_estimators p q Hp Hq)
    as [P [Q [HP [HQ [HnP [HnQ [HvP HvQ]]]]]]].
  exists P, Q. split; [| split; [| tauto]].
  - unfold probability_functions. rewrite HP, HQ. reflexivity.
  - destruct HnP as [_ [HlP _]], HnQ as [_ [HlQ _]]. congruence.
Qed.

(** Whenever the two vectors hold numbers only, they are probability
    vectors of the same length. *)
Lemma probability_functions_fin (p q : list R) (discrete : bool)
  (P Q : list R) :
  p <> [] -> q <> [] ->
  probability_functions p q discrete = Ok (map Fin P, map Fin Q) ->
  length P = length Q /\ probability_vector P /\ probability_vector Q.
Proof.
  intros Hp Hq Hpf. destruct discrete.
  - destruct (probability_functions_discrete p q Hp Hq)
      as [P' [Q' [Hpf' [Hlen [HvP HvQ]]]]].
    rewrite Hpf in Hpf'. injection Hpf' as HP HQ.
    apply map_Fin_inj in HP, HQ. subst. tauto.
  - destruct (continuous_estimators p q Hp Hq)
      as [minx [maxx [A [B [_ [_ [Hpf' [_ [_ [HlA [HlB [HoA HoB]]]]]]]]]]]].
    rewrite Hpf in Hpf'. injection Hpf' as HP HQ. subst A B.
    rewrite length_map in HlA, HlB.
    apply density_or_nan_fin in HoA; [| apply linspace_100_nonempty].
    apply density_or_nan_fin in HoB; [| apply linspace_100_nonempty].
    split; [congruence | tauto].
Qed.

(** *** Samples far from the grid *)

Lemma linspace_In (start stop : R) (num : nat) (g : R) :
  In g (linspace start stop num) ->
  exists i, (i < num)%nat
            /\ g = start + INR i * ((stop - start) / INR (num - 1)).
Proof.
  unfold linspace. intros H. apply in_map_iff in H.
  destruct H as [i [<- Hi]]. apply in_seq in Hi.
  exists i. split; [lia | reflexivity].
Qed.

Lemma linspace_first (start stop : R) (num : nat) :
  (0 < num)%nat -> In start (linspace start stop num).
Proof.
  intros Hn. unfold linspace. apply in_map_iff. exists 0%nat. split.
  - cbn [INR]. ring.
  - apply in_seq. lia.
Qed.

(** The grid from 0 to 10000 has a step of about 101, so the sample 50 is
    farther than the underflow distance from every grid point. *)
Lemma underflow_grid_unreached :
  ~ kernel_reaches [50] (linspace 0 10000 100).
Proof.
  intros [u [g [Hu [Hg Hd]]]].
  destruct Hu as [<- | []].
  apply linspace_In in Hg. destruct Hg as [i [Hi ->]].
  rewrite INR_99 in Hd. unfold underflow_distance in Hd.
  destruct i as [| i].
  - cbn [INR] in Hd. unfold Rabs in Hd.
    destruct (Rcase_abs _) in Hd; lra.
  - assert (H1 : 1 <= INR (S i)).
    { rewrite S_INR. pose proof (pos_INR i). lra. }
    unfold Rabs in Hd. destruct (Rcase_abs _) in Hd; lra.
Qed.

Lemma underflow_estimate :
  _estimate_pdf [50] (linspace 0 10000 100)
  = Ok (map (fun _ => NaN) (linspace 0 10000 100)).
Proof.
  apply _estimate_pdf_underflow; [discriminate |].
  apply kernel_total_far, underflow_grid_unreached.
Qed.

Lemma underflow_probability_functions :
  exists Q,
    probability_functions [50] [0; 10000] false
    = Ok (map (fun _ => NaN) (linspace 0 10000 100), map Fin Q)
    /\ _estimate_pdf [0; 10000] (linspace 0 10000 100) = Ok (map Fin Q)
    /\ length Q = 100%nat
    /\ probability_vector Q.
Proof.
  destruct (_estimate_pdf_normalised [0; 10000] (linspace 0 10000 100))
    as [Q [HQ [HnQ HvQ]]].
  { apply kernel_total_reaches. exists 0, 0.
    split; [now left |]. split; [apply linspace_first; lia |].
    unfold underflow_distance. rewrite Rminus_diag, Rabs_R0. lra. }
  exists Q.
  assert (Hmin : Rmin 50 (Rmin 0 10000) = 0).
  { unfold Rmin. destruct (Rle_dec 0 10000); [| lra].
    destruct (Rle_dec 50 0); lra. }
  assert (Hmax : Rmax 50 (Rmax 0 10000) = 10000).
  { unfold Rmax. destruct (Rle_dec 0 10000); [| lra].
    destruct (Rle_dec 50 10000); lra. }
  split; [| split; [exact HQ | split; [| exact HvQ]]].
  - unfold probability_functions.
    cbn [array_min array_max fold_left bind]. cbv zeta.
    rewrite Hmin, Hmax, underflow_estimate, HQ. reflexivity.
  - destruct HnQ as [_ [Hl _]]. now rewrite Hl, linspace_length.
Qed.

(** C4. The continuous estimator on the samples p = [50.0], q = [0.0,
    10000.0]: the grid runs over 100 points from 0 to 10000, every kernel
    value of the sample 50 underflows to zero on it, the total
    [density.sum()] is zero, and the vector returned for p is 100 entries of
    [nan] where the claim promises non-negative entries that sum to 1; it
    holds no number at all. *)
Theorem continuous_estimator_underflow :
  let x := linspace 0 10000 100 in
  Rsum (map (kernel_sum [50]) x) = 0
  /\ _estimate_pdf [50] x = Ok (map (fun _ => NaN) x)
  /\ length (map (fun _ : R => NaN) x) = 100%nat
  /\ (forall P : list R, _estimate_pdf [50] x <> Ok (map Fin P))
  /\ exists Q,
       probability_functions [50] [0; 10000] false
       = Ok (map (fun _ => NaN) x, map Fin Q).
Proof.
  cbv zeta.
  split; [apply kernel_total_far, underflow_grid_unreached |].
  split; [apply underflow_estimate |].
  split; [now rewrite length_map, linspace_length |].
  split.
  - intros P H. rewrite underflow_estimate in H.
    apply (map_Fin_not_nan (linspace 0 10000 100) P
             (linspace_100_nonempty _ _)).
    congruence.
  - destruct underflow_probability_functions as [Q [Hpf _]].
    exists Q. exact Hpf.
Qed.

(** ** The Hellinger branch *)

Lemma fsum_fin (l : list R) : fsum (map Fin l) = Fin (Rsum l).
Proof.
  induction l as [| h t IH]; cbn; [reflexivity |].
  fold (fsum (map Fin t)). fold (Rsum t). now rewrite IH.
Qed.

Lemma hellinger_terms_fin (P Q : list R) :
  Forall (fun m => 0 <= m) P -> Forall (fun m => 0 <= m) Q ->
  map2 (fun a b => let d := fsub (fsqrt a) (fsqrt b) in fmul d d)
       (map Fin P) (map Fin Q)
  = map Fin (map (fun c => c ^ 2) (map2 (fun a b => sqrt a - sqrt b) P Q)).
Proof.
  intros HP. revert Q.
  induction HP as [| a P Ha _ IH]; intros Q HQ; [reflexivity |].
  destruct HQ as [| b Q Hb HQ]; [reflexivity |].
  unfold map2 in *. cbn [map combine fst snd].
  rewrite IH by exact HQ. f_equal.
  rewrite !fsqrt_fin by assumption. cbn. f_equal. ring.
Qed.

Lemma hellinger_fin (P Q : list R) :
  Forall (fun m => 0 <= m) P -> Forall (fun m => 0 <= m) Q ->
  hellinger (map Fin P) (map Fin Q) = Fin (hellinger_distance P Q).
Proof.
  intros HP HQ. unfold hellinger, hellinger_distance, euclidean_norm.
  rewrite hellinger_terms_fin by assumption.
  rewrite fsum_fin.
  rewrite fsqrt_fin.
  - pose proof sqrt2_pos. rewrite fdiv_fin by lra. f_equal. field. lra.
  - apply Rsum_nonneg, Forall_forall. intros m Hm.
    apply in_map_iff in Hm. destruct Hm as [c [<- _]]. nra.
Qed.

Lemma sqrt_diff_sq_le (a b : R) :
  0 <= a -> 0 <= b -> (sqrt a - sqrt b) ^ 2 <= a + b.
Proof.
  intros Ha Hb.
  pose proof (sqrt_pos a). pose proof (sqrt_pos b).
  pose proof (sqrt_def a Ha). pose proof (sqrt_def b Hb). nra.
Qed.

Lemma hellinger_sum_le (P Q : list R) :
  Forall (fun m => 0 <= m) P -> Forall (fun m => 0 <= m) Q ->
  Rsum (map (fun c => c ^ 2) (map2 (fun a b => sqrt a - sqrt b) P Q))
  <= Rsum P + Rsum Q.
Proof.
  intros HP. revert Q.
  induction HP as [| a P Ha HP IH]; intros Q HQ.
  - cbn. pose proof (Rsum_nonneg Q HQ). lra.
  - destruct HQ as [| b Q Hb HQ].
    + cbn. fold (Rsum P). pose proof (Rsum_nonneg P HP). lra.
    + unfold map2 in *. cbn [map combine fst snd Rsum fold_right].
      fold (Rsum P). fold (Rsum Q).
      fold (Rsum (map (fun c => c ^ 2)
                   (map (fun ab => sqrt (fst ab) - sqrt (snd ab)) (combine P Q)))).
      specialize (IH Q HQ). pose proof (sqrt_diff_sq_le a b Ha Hb). lra.
Qed.

Lemma hellinger_sum_zero (P Q : list R) :
  Forall (fun m => 0 <= m) P -> Forall (fun m => 0 <= m) Q ->
  length P = length Q ->
  (Rsum (map (fun c => c ^ 2) (map2 (fun a b => sqrt a - sqrt b) P Q)) = 0
   <-> P = Q).
Proof.
  intros HP. revert Q.
  induction HP as [| a P Ha HP IH]; intros Q HQ Hlen.
  - destruct Q; [| discriminate]. cbn. tauto.
  - destruct HQ as [| b Q Hb HQ]; [discriminate |].
    injection Hlen as Hlen. specialize (IH Q HQ Hlen).
    unfold map2 in *. cbn [map combine fst snd Rsum fold_right].
    set (rest := fold_right Rplus 0 _) in *.
    assert (Hrest : 0 <= rest).
    { apply Rsum_nonneg, Forall_forall. intros m Hm.
      apply in_map_iff in Hm. destruct Hm as [c [<- _]]. nra. }
    split.
    + intros Hsum.
      pose proof (pow2_ge_0 (sqrt a - sqrt b)) as Hsq.
      assert (H0 : (sqrt a - sqrt b) ^ 2 = 0) by lra.
      assert (Hr : rest = 0) by lra.
      assert (Hab : sqrt a = sqrt b) by nra.
      apply sqrt_inj in Hab; [| assumption | assumption].
      subst b. f_equal. now apply IH.
    + intros Heq. injection Heq as -> ->.
      assert (Hr : rest = 0) by now apply IH.
      rewrite Hr. ring.
Qed.

Lemma hellinger_distance_range (P Q : list R) :
  length P = length Q -> probability_vector P -> probability_vector Q ->
  0 <= hellinger_distance P Q <= 1
  /\ (hellinger_distance P Q = 0 <-> P = Q).
Proof.
  intros Hlen [HP HsP] [HQ HsQ].
  unfold hellinger_distance, euclidean_norm.
  set (S := Rsum (map (fun c => c ^ 2) (map2 (fun a b => sqrt a - sqrt b) P Q))).
  assert (HS0 : 0 <= S).
  { apply Rsum_nonneg, Forall_forall. intros m Hm.
    apply in_map_iff in Hm. destruct Hm as [c [<- _]]. nra. }
  assert (HS2 : S <= 2).
  { pose proof (hellinger_sum_le P Q HP HQ). fold S in H. lra. }
  pose proof sqrt2_pos as H2.
  pose proof (sqrt_pos S) as HsS.
  assert (Hle : sqrt S <= sqrt 2) by (apply sqrt_le_1; lra).
  assert (Hinv : 0 < / sqrt 2) by now apply Rinv_0_lt_compat.
  split.
  - unfold Rdiv. rewrite Rmult_1_l. split.
    + apply Rmult_le_pos; lra.
    + replace 1 with (/ sqrt 2 * sqrt 2) by (field; lra).
      apply Rmult_le_compat_l; lra.
  - rewrite <- (hellinger_sum_zero P Q HP HQ Hlen). fold S.
    split.
    + intros H0.
      assert (Hs : sqrt S = 0).
      { unfold Rdiv in H0. rewrite Rmult_1_l in H0.
        apply Rmult_integral in H0. destruct H0; lra. }
      now apply sqrt_eq_0.
    + intros ->. rewrite sqrt_0. ring.
Qed.

Lemma distance_hellinger_unfold (p q : list R) (discrete : bool)
  (v : list float64 * list float64) :
  probability_functions p q discrete = Ok v ->
  distance_pior_posterior p q "Hellinger" discrete
  = Ok (hellinger (fst v) (snd v)).
Proof.
  intros H. unfold distance_pior_posterior. cbn. now rewrite H.
Qed.

Lemma finite_when_discrete (p q : list R) (discrete : bool) :
  p <> [] -> q <> [] -> discrete = true ->
  exists P Q, probability_functions p q discrete = Ok (map Fin P, map Fin Q).
Proof.
  intros Hp Hq ->.
  destruct (probability_functions_discrete p q Hp Hq) as [P [Q [Hpf _]]].
  now exists P, Q.
Qed.

Lemma hellinger_nan_vector {A : Type} (x : list A) (Q : list float64) :
  x <> [] -> Q <> [] -> hellinger (map (fun _ => NaN) x) Q = NaN.
Proof.
  intros Hx HQ. destruct x as [| a x]; [congruence |].
  destruct Q as [| b Q]; [congruence |]. reflexivity.
Qed.

(** C7. The "Hellinger" method on the samples p = [50.0], q = [0.0,
    10000.0] with the continuous estimator: every kernel value of the sample
    50 underflows to zero on the grid, the probability vector of p is all
    [nan], and the distance returned is [nan] where the claim promises a
    number in [0, 1]. *)
Theorem hellinger_underflow_nan :
  distance_pior_posterior [50] [0; 10000] "Hellinger" false = Ok NaN.
Proof.
  destruct underflow_probability_functions as [Q [Hpf [_ [Hlen _]]]].
  rewrite (distance_hellinger_unfold _ _ _ _ Hpf). cbn [fst snd].
  rewrite hellinger_nan_vector; [reflexivity | apply linspace_100_nonempty |].
  destruct Q; [discriminate Hlen | discriminate].
Qed.

(** X18. For two non-empty sample collections the discrete estimator always
    gives two vectors of numbers; and with either estimator, whenever the
    two vectors hold numbers only, they are probability vectors of the same
    length and the "Hellinger" method returns (1/sqrt 2) times the Euclidean
    norm of the pointwise difference of their square roots, a value in
    [0, 1] that is 0 exactly when the two vectors are equal. *)
Theorem hellinger_on_probability_vectors (p q : list R) (discrete : bool) :
  p <> [] -> q <> [] ->
  (discrete = true ->
   exists P Q, probability_functions p q discrete = Ok (map Fin P, map Fin Q))
  /\ forall P Q,
       probability_functions p q discrete = Ok (map Fin P, map Fin Q) ->
       length P = length Q
       /\ probability_vector P
       /\ probability_vector Q
       /\ distance_pior_posterior p q "Hellinger" discrete
          = Ok (Fin (hellinger_distance P Q))
       /\ 0 <= hellinger_distance P Q <= 1
       /\ (hellinger_distance P Q = 0 <-> P = Q).
Proof.
  intros Hp Hq. split; [now apply finite_when_discrete |].
  intros P Q Hpf.
  destruct (probability_functions_fin p q discrete P Q Hp Hq Hpf)
    as [Hlen [HvP HvQ]].
  split; [exact Hlen |]. split; [exact HvP |]. split; [exact HvQ |].
  split.
  - rewrite (distance_hellinger_unfold p q discrete _ Hpf). cbn [fst snd].
    rewrite hellinger_fin; [reflexivity | apply HvP | apply HvQ].
  - now apply hellinger_distance_range.
Qed.

Lemma hellinger_on_probability_vectors_witness :
  exists P Q,
    probability_functions [1; 1; 3] [2] true = Ok (map Fin P, map Fin Q)
    /\ length P = length Q
    /\ probability_vector P
    /\ probability_vector Q
    /\ distance_pior_posterior [1; 1; 3] [2] "Hellinger" true
       = Ok (Fin (hellinger_distance P Q))
    /\ 0 <= hellinger_distance P Q <= 1
    /\ (hellinger_distance P Q = 0 <-> P = Q).
Proof.
  destruct (hellinger_on_probability_vectors [1; 1; 3] [2] true)
    as [Hex Hall]; [discriminate | discriminate |].
  destruct (Hex eq_refl) as [P [Q Hpf]].
  exists P, Q. split; [exact Hpf | now apply Hall].
Defined.

(** ** Invalid method strings *)

(** Counterexample to C5 as stated: with the method "bogus" the call ends
    in [UnboundLocalError], raised by the read of the never-assigned local
    in the final branch; no error that rejects the method is raised. *)
Lemma invalid_method_no_explicit_error :
  distance_pior_posterior [1; 2] [3] "bogus" true = Raise UnboundLocalError
  /\ ~ (exists e, distance_pior_posterior [1; 2] [3] "bogus" true = Raise e
                  /\ explicit_error e = true).
Proof.
  split; [reflexivity |].
  intros [e [He Hexp]].
  change (distance_pior_posterior [1; 2] [3] "bogus" true)
    with (@Raise float64 UnboundLocalError) in He.
  injection He as <-. discriminate Hexp.
Qed.

(** C5 (amended). For every method string other than "KS", "Hellinger",
    "JS" and "min" (for instance "bogus"), whatever the samples and the
    discrete flag, the distance function returns no number: the method is
    never checked, no estimator is built, and the read of the never-assigned
    probability vectors in the final branch raises [UnboundLocalError]. *)
Theorem invalid_method_raises (p q : list R) (method : string)
  (discrete : bool) :
  ~ In method ["KS"; "Hellinger"; "JS"; "min"]%string ->
  distance_pior_posterior p q method discrete = Raise UnboundLocalError.
Proof.
  intros Hm. cbn in Hm.
  assert (HKS : (method =? "KS")%string = false)
    by (apply String.eqb_neq; intros ->; tauto).
  assert (HH : (method =? "Hellinger")%string = false)
    by (apply String.eqb_neq; intros ->; tauto).
  assert (HJS : (method =? "JS")%string = false)
    by (apply String.eqb_neq; intros ->; tauto).
  assert (Hmin : (method =? "min")%string = false)
    by (apply String.eqb_neq; intros ->; tauto).
  unfold distance_pior_posterior, estimator_method.
  rewrite HKS, HH, HJS, Hmin. reflexivity.
Qed.

Lemma invalid_method_raises_witness :
  distance_pior_posterior [1; 2] [3] "bogus" true = Raise UnboundLocalError.
Proof.
  apply (invalid_method_raises [1; 2] [3] "bogus" true).
  cbn. intros [H | [H | [H | [H | []]]]]; discriminate H.
Defined.

(** ** Symmetry of the metrics *)

Lemma map2_comm {A B : Type} (f : A -> A -> B) (l m : list A) :
  (forall a b, f a b = f b a) -> map2 f l m = map2 f m l.
Proof.
  intros Hf. unfold map2. revert m.
  induction l as [| a l IH]; intros [| b m]; cbn; try reflexivity.
  now rewrite IH, Hf.
Qed.

Lemma fadd_comm (a b : float64) : fadd a b = fadd b a.
Proof.
  destruct a, b; cbn; try reflexivity. now rewrite Rplus_comm.
Qed.

Lemma fminimum_comm (a b : float64) : fminimum a b = fminimum b a.
Proof.
  destruct a, b; cbn; try reflexivity. now rewrite Rmin_comm.
Qed.

Lemma fsub_square_comm (a b : float64) :
  (let d := fsub a b in fmul d d) = (let d := fsub b a in fmul d d).
Proof.
  destruct a, b; cbn; try reflexivity. f_equal. ring.
Qed.

Lemma hellinger_comm (P Q : list float64) : hellinger P Q = hellinger Q P.
Proof.
  unfold hellinger.
  rewrite (map2_comm _ P Q); [reflexivity |].
  intros a b. apply (fsub_square_comm (fsqrt a) (fsqrt b)).
Qed.

Lemma min_overlap_comm (P Q : list float64) :
  min_overlap P Q = min_overlap Q P.
Proof.
  unfold min_overlap. now rewrite (map2_comm fminimum P Q fminimum_comm).
Qed.

Lemma jensenshannon_comm (P Q : list float64) :
  jensenshannon P Q = jensenshannon Q P.
Proof.
  unfold jensenshannon. cbv zeta.
  rewrite (map2_comm (fun a b => fdiv (fadd a b) (Fin 2))
             (map (fun a => fdiv a (fsum P)) P)
             (map (fun a => fdiv a (fsum Q)) Q)).
  - now rewrite fadd_comm.
  - intros a b. now rewrite fadd_comm.
Qed.

(** *** The Kolmogorov-Smirnov statistic *)

Lemma fold_left_Rmin_unique (t : list R) (h m : R) :
  In m (h :: t) -> (forall v, In v (h :: t) -> m <= v) ->
  fold_left Rmin t h = m.
Proof.
  intros Hin Hle. destruct (fold_left_Rmin_spec t h) as [Hin' Hle'].
  specialize (Hle _ Hin'). specialize (Hle' _ Hin). lra.
Qed.

Lemma fold_left_Rmax_unique (t : list R) (h m : R) :
  In m (h :: t) -> (forall v, In v (h :: t) -> v <= m) ->
  fold_left Rmax t h = m.
Proof.
  intros Hin Hle. destruct (fold_left_Rmax_spec t h) as [Hin' Hle'].
  specialize (Hle _ Hin'). specialize (Hle' _ Hin). lra.
Qed.

Lemma count_le_le_length (s : list R) (v : R) :
  (count_le s v <= Z.of_nat (length s))%Z.
Proof.
  unfold count_le. apply inj_le.
  induction s as [| h t IH]; cbn; [lia |].
  destruct (Rleb h v); cbn; lia.
Qed.

Lemma ecdf_range (s : list R) (v : R) :
  s <> [] -> 0 <= IZR (count_le s v) / INR (length s) <= 1.
Proof.
  intros Hs.
  assert (Hlen : 0 < INR (length s)).
  { apply lt_0_INR. destruct s; [congruence | cbn; lia]. }
  pose proof (IZR_le _ _ (count_le_nonneg s v)) as H0.
  pose proof (IZR_le _ _ (count_le_le_length s v)) as H1.
  rewrite <- INR_IZR_INZ in H1.
  split.
  - apply Rmult_le_pos; [exact H0 | left; now apply Rinv_0_lt_compat].
  - apply (Rmult_le_reg_r (INR (length s))); [exact Hlen |].
    unfold Rdiv. rewrite Rmult_assoc, Rinv_l by lra. lra.
Qed.

Lemma ks_2samp_statistic_comm (p q : list R) :
  ks_2samp_statistic p q = ks_2samp_statistic q p.
Proof.
  destruct p as [| a p'], q as [| b q']; try reflexivity.
  set (p := a :: p'). set (q := b :: q').
  assert (Hp : p <> []) by discriminate.
  assert (Hq : q <> []) by discriminate.
  unfold ks_2samp_statistic. fold p q. cbv zeta.
  set (c := fun v => IZR (count_le p v) / INR (length p)
                     - IZR (count_le q v) / INR (length q)).
  set (c' := fun v => IZR (count_le q v) / INR (length q)
                      - IZR (count_le p v) / INR (length p)).
  assert (Hc : forall v, c' v = - c v) by (intros v; unfold c, c'; ring).
  assert (Hrange : forall v, -1 <= c v <= 1).
  { intros v. unfold c.
    pose proof (ecdf_range p v Hp). pose proof (ecdf_range q v Hq). lra. }
  change (map c (p ++ q)) with (c a :: map c (p' ++ q)).
  change (map c' (q ++ p)) with (c' b :: map c' (q' ++ p)).
  cbv iota.
  set (d := c a). set (ds := map c (p' ++ q)).
  set (e := c' b). set (es := map c' (q' ++ p)).
  assert (Hl : forall w, In w (d :: ds) <-> exists v, In v (p ++ q) /\ w = c v).
  { intros w. change (d :: ds) with (map c (p ++ q)). rewrite in_map_iff.
    split; intros [v [H1 H2]]; exists v; auto. }
  assert (Hl' : forall w, In w (e :: es) <-> exists v, In v (p ++ q) /\ w = - c v).
  { intros w. change (e :: es) with (map c' (q ++ p)). rewrite in_map_iff.
    split; intros [v [H1 H2]]; exists v.
    - rewrite Hc in H1. rewrite in_app_iff in *. split; [tauto | auto].
    - rewrite Hc. rewrite in_app_iff in *. split; [auto | tauto]. }
  destruct (fold_left_Rmin_spec ds d) as [Hmn_in Hmn_le].
  destruct (fold_left_Rmax_spec ds d) as [Hmx_in Hmx_le].
  set (mn := fold_left Rmin ds d) in *. set (mx := fold_left Rmax ds d) in *.
  assert (Hmn' : fold_left Rmin es e = - mx).
  { apply fold_left_Rmin_unique.
    - apply Hl'. apply Hl in Hmx_in. destruct Hmx_in as [v [Hv ->]].
      exists v. auto.
    - intros w Hw. apply Hl' in Hw. destruct Hw as [v [Hv ->]].
      assert (c v <= mx) by (apply Hmx_le, Hl; eauto). lra. }
  assert (Hmx' : fold_left Rmax es e = - mn).
  { apply fold_left_Rmax_unique.
    - apply Hl'. apply Hl in Hmn_in. destruct Hmn_in as [v [Hv ->]].
      exists v. auto.
    - intros w Hw. apply Hl' in Hw. destruct Hw as [v [Hv ->]].
      assert (mn <= c v) by (apply Hmn_le, Hl; eauto). lra. }
  rewrite Hmn', Hmx'.
  assert (Hmx1 : mx <= 1).
  { apply Hl in Hmx_in. destruct Hmx_in as [v [_ ->]]. apply Hrange. }
  assert (Hmn1 : - mn <= 1).
  { apply Hl in Hmn_in. destruct Hmn_in as [v [_ ->]].
    pose proof (Hrange v). lra. }
  apply f_equal. apply f_equal. unfold clip, Rmin, Rmax.
  repeat (destruct (Rle_dec _ _)); lra.
Qed.

(** *** The estimator branch *)

Lemma probability_functions_swap (p q : list R) (discrete : bool)
  (P Q : list float64) :
  probability_functions p q discrete = Ok (P, Q) ->
  probability_functions q p discrete = Ok (Q, P).
Proof.
  unfold probability_functions. destruct discrete.
  - rewrite (unique_app_comm q p).
    destruct (_pmf p (unique (p ++ q))) as [P' | e]; cbn; [| discriminate].
    destruct (_pmf q (unique (p ++ q))) as [Q' | e]; cbn; [| discriminate].
    congruence.
  - destruct (array_min p) as [pmin | e]; cbn; [| discriminate].
    destruct (array_min q) as [qmin | e]; cbn; [| discriminate].
    destruct (array_max p) as [pmax | e]; cbn; [| discriminate].
    destruct (array_max q) as [qmax | e]; cbn; [| discriminate].
    rewrite (Rmin_comm qmin pmin), (Rmax_comm qmax pmax).
    destruct (_estimate_pdf p _) as [P' | e]; cbn; [| discriminate].
    destruct (_estimate_pdf q _) as [Q' | e]; cbn; [| discriminate].
    congruence.
Qed.

(** C8. For two non-empty sample collections, each of the four supported
    methods and either value of the discrete flag, exchanging the two sample
    arguments does not change the result of the distance function. *)
Theorem distance_symmetric (p q : list R) (method : string)
  (discrete : bool) :
  p <> [] -> q <> [] ->
  In method ["KS"; "Hellinger"; "JS"; "min"]%string ->
  distance_pior_posterior p q method discrete
  = distance_pior_posterior q p method discrete.
Proof.
  intros Hp Hq Hm.
  destruct (probability_functions_ok p q discrete Hp Hq)
    as [P [Q [Hpf _]]].
  pose proof (probability_functions_swap p q discrete _ _ Hpf) as Hqf.
  cbn in Hm. destruct Hm as [<- | [<- | [<- | [<- | []]]]];
    unfold distance_pior_posterior;
    cbn -[ks_2samp_statistic hellinger jensenshannon min_overlap
          probability_functions];
    rewrite ?Hpf, ?Hqf; cbn [bind read_locals fst snd].
  - apply ks_2samp_statistic_comm.
  - now rewrite hellinger_comm.
  - now rewrite jensenshannon_comm.
  - now rewrite min_overlap_comm.
Qed.

Lemma distance_symmetric_witness :
  distance_pior_posterior [1; 1; 3] [2] "JS" true
  = distance_pior_posterior [2] [1; 1; 3] "JS" true.
Proof.
  apply (distance_symmetric [1; 1; 3] [2] "JS" true); try discriminate.
  cbn. tauto.
Defined.

(** ** Empty sample collections *)

Lemma diff_zeros {A : Type} (l : list A) :
  diff (map (fun _ => 0%Z) l) = map (fun _ => 0%Z) (tl l).
Proof.
  induction l as [| a [| b t] IH]; try reflexivity.
  change (diff (map (fun _ : A => 0%Z) (a :: b :: t)))
    with ((0 - 0)%Z :: diff (map (fun _ : A => 0%Z) (b :: t))).
  rewrite IH. reflexivity.
Qed.

Lemma Zsum_zeros {A : Type} (l : list A) : Zsum (map (fun _ => 0%Z) l) = 0%Z.
Proof. induction l as [| a l IH]; cbn; [reflexivity | exact IH]. Qed.

Lemma _pmf_cons (s : list R) (a : R) (l : list R) :
  _pmf s (a :: l)
  = Ok (map (fun c =>
               fdiv (Fin (IZR c))
                    (Fin (IZR (Zsum (count_le s a
                                     :: diff (map (count_le s) (a :: l)))))))
            (count_le s a :: diff (map (count_le s) (a :: l)))).
Proof. reflexivity. Qed.

(** Without samples every count is zero, and the normalisation turns every
    entry into 0/0. *)
Lemma _pmf_no_samples (a : R) (l : list R) :
  _pmf [] (a :: l) = Ok (map (fun _ => NaN) (a :: l)).
Proof.
  rewrite _pmf_cons.
  assert (Hz : map (count_le []) (a :: l) = map (fun _ => 0%Z) (a :: l))
    by (apply map_ext; intros v; apply count_le_nil).
  rewrite Hz, (diff_zeros (a :: l)), count_le_nil. cbn [tl].
  change (0%Z :: map (fun _ : R => 0%Z) l) with (map (fun _ : R => 0%Z) (a :: l)).
  rewrite Zsum_zeros, map_map. apply f_equal. apply map_ext.
  intros _. apply fdiv_zero_zero.
Qed.

Lemma hellinger_nan_head (P Q : list float64) (b : float64) :
  hellinger (NaN :: P) (b :: Q) = NaN.
Proof. reflexivity. Qed.

Lemma min_overlap_nan_head (P Q : list float64) (b : float64) :
  min_overlap (NaN :: P) (b :: Q) = NaN.
Proof. reflexivity. Qed.

Lemma jensenshannon_nan_head (P Q : list float64) (b : float64) :
  jensenshannon (NaN :: P) (b :: Q) = NaN.
Proof. reflexivity. Qed.

(** With no sample in [p] and some in [q], the discrete branch returns an
    all-[nan] vector for [p] and a non-empty vector for [q]. *)
Lemma probability_functions_one_empty (q : list R) :
  q <> [] ->
  exists P b Q, probability_functions [] q true = Ok (NaN :: P, b :: Q).
Proof.
  intros Hq. unfold probability_functions. cbn [app].
  destruct (_pmf_normalised q (unique q)) as [M [HM [[_ [Hlen _]] _]]];
    [apply unique_sorted | intros u Hu; now apply unique_In | exact Hq |].
  pose proof (unique_nonempty q Hq) as Hx.
  destruct (unique q) as [| a l] eqn:Hu; [congruence |].
  rewrite _pmf_no_samples, HM. cbn [bind map].
  destruct M as [| m M]; [discriminate |].
  cbn [map]. eauto.
Qed.

Lemma probability_functions_both_empty :
  probability_functions [] [] true = Raise IndexError.
Proof. reflexivity. Qed.

Lemma probability_functions_empty_continuous (p q : list R) :
  p = [] \/ q = [] -> probability_functions p q false = Raise ValueError.
Proof.
  intros [-> | ->]; unfold probability_functions; [reflexivity |].
  destruct p; reflexivity.
Qed.

Lemma ks_2samp_statistic_empty (p q : list R) :
  p = [] \/ q = [] -> ks_2samp_statistic p q = Raise ValueError.
Proof. intros [-> | ->]; [reflexivity | destruct p; reflexivity]. Qed.

(** What the three estimator methods return on given probability vectors. *)
Lemma distance_estimator_branch (p q : list R) (method : string)
  (discrete : bool) :
  In method ["Hellinger"; "JS"; "min"]%string ->
  exists metric,
    (metric = hellinger \/ metric = jensenshannon \/ metric = min_overlap)
    /\ distance_pior_posterior p q method discrete
       = (v <- probability_functions p q discrete ;;
          Ok (metric (fst v) (snd v))).
Proof.
  intros Hm. cbn in Hm.
  destruct Hm as [<- | [<- | [<- | []]]];
    [exists hellinger | exists jensenshannon | exists min_overlap];
    (split; [tauto |]);
    unfold distance_pior_posterior;
    cbn -[hellinger jensenshannon min_overlap probability_functions];
    destruct (probability_functions p q discrete); reflexivity.
Qed.

Lemma metric_nan_head (metric : list float64 -> list float64 -> float64)
  (P Q : list float64) (b : float64) :
  metric = hellinger \/ metric = jensenshannon \/ metric = min_overlap ->
  metric (NaN :: P) (b :: Q) = NaN /\ metric (b :: Q) (NaN :: P) = NaN.
Proof.
  intros [-> | [-> | ->]].
  - split; [| rewrite hellinger_comm]; apply hellinger_nan_head.
  - split; [| rewrite jensenshannon_comm]; apply jensenshannon_nan_head.
  - split; [| rewrite min_overlap_comm]; apply min_overlap_nan_head.
Qed.

(** Counterexample to C2 as stated: with an empty first collection, method
    "Hellinger" and the discrete estimator, the call raises nothing and
    returns [nan]. *)
Lemma empty_input_returns_nan :
  distance_pior_posterior [] [1] "Hellinger" true = Ok NaN
  /\ ~ (exists e, distance_pior_posterior [] [1] "Hellinger" true = Raise e).
Proof.
  assert (H : distance_pior_posterior [] [1] "Hellinger" true = Ok NaN).
  { destruct (probability_functions_one_empty [1]) as [P [b [Q HPQ]]];
      [discriminate |].
    unfold distance_pior_posterior.
    cbn -[hellinger probability_functions]. rewrite HPQ. reflexivity. }
  split; [exact H |]. intros [e He]. rewrite H in He. discriminate.
Qed.

(** C2 (amended). The distance function has no empty-input check of its
    own.  With at least one empty sample collection and a supported method
    it never returns a finite number: "KS" raises SciPy's ValueError; with
    the continuous estimator the other three methods raise the ValueError of
    the minimum over an empty array; with the discrete estimator they raise
    IndexError when both collections are empty, and when exactly one is
    empty they raise nothing and return [nan]. *)
Theorem empty_input_behaviour (p q : list R) (method : string)
  (discrete : bool) :
  p = [] \/ q = [] ->
  In method ["KS"; "Hellinger"; "JS"; "min"]%string ->
  (method = "KS"%string ->
   distance_pior_posterior p q method discrete = Raise ValueError)
  /\ (method <> "KS"%string -> discrete = false ->
      distance_pior_posterior p q method discrete = Raise ValueError)
  /\ (method <> "KS"%string -> discrete = true -> p = [] -> q = [] ->
      distance_pior_posterior p q method discrete = Raise IndexError)
  /\ (method <> "KS"%string -> discrete = true -> p <> [] \/ q <> [] ->
      distance_pior_posterior p q method discrete = Ok NaN).
Proof.
  intros Hempty Hm.
  split.
  { intros ->. unfold distance_pior_posterior. cbn -[ks_2samp_statistic].
    now apply ks_2samp_statistic_empty. }
  assert (Hbranch : method <> "KS"%string ->
            exists metric,
              (metric = hellinger \/ metric = jensenshannon
               \/ metric = min_overlap)
              /\ distance_pior_posterior p q method discrete
                 = (v <- probability_functions p q discrete ;;
                    Ok (metric (fst v) (snd v)))).
  { intros Hks. apply distance_estimator_branch.
    cbn in Hm |- *. destruct Hm as [Hm | Hm]; [congruence | exact Hm]. }
  split; [| split].
  - intros Hks ->. destruct (Hbranch Hks) as [metric [_ ->]].
    now rewrite probability_functions_empty_continuous.
  - intros Hks -> -> ->. destruct (Hbranch Hks) as [metric [_ ->]].
    now rewrite probability_functions_both_empty.
  - intros Hks -> Hne. destruct (Hbranch Hks) as [metric [Hmetric ->]].
    destruct Hempty as [-> | ->].
    + destruct Hne as [Hne | Hne]; [congruence |].
      destruct (probability_functions_one_empty q Hne) as [P [b [Q HPQ]]].
      rewrite HPQ. cbn [bind fst snd].
      now rewrite (proj1 (metric_nan_head metric P Q b Hmetric)).
    + destruct Hne as [Hne | Hne]; [| congruence].
      destruct (probability_functions_one_empty p Hne) as [P [b [Q HPQ]]].
      rewrite (probability_functions_swap _ _ _ _ _ HPQ). cbn [bind fst snd].
      now rewrite (proj2 (metric_nan_head metric P Q b Hmetric)).
Qed.

Lemma empty_input_behaviour_witness :
  distance_pior_posterior [] [1; 2] "min" true = Ok NaN.
Proof.
  apply (empty_input_behaviour [] [1; 2] "min" true).
  - left. reflexivity.
  - cbn. tauto.
  - discriminate.
  - reflexivity.
  - right. discriminate.
Defined.

(** ** The embedding on concrete inputs *)

Ltac Rdecide :=
  repeat first
    [ rewrite Rleb_true by lra | rewrite Rleb_false by lra
    | rewrite Rltb_true by lra | rewrite Rltb_false by lra
    | rewrite Reqb_true by lra | rewrite Reqb_false by lra ].

Ltac Rrun :=
  repeat (progress (unfold count_le, unique;
                    cbn [app fold_right insert_uniq filter length map diff
                         Zsum bind fst snd combine];
                    Rdecide)).

Example unique_example : unique ([3; 1] ++ [1; 2]) = [1; 2; 3].
Proof. Rrun. reflexivity. Qed.

Example count_le_example : count_le [1; 1; 3] 2 = 2%Z.
Proof. Rrun. reflexivity. Qed.

Example _pmf_example :
  _pmf [1; 1; 3] [1; 2; 3] = Ok [Fin (2 / 3); Fin (0 / 3); Fin (1 / 3)].
Proof.
  rewrite _pmf_cons. Rrun. cbn. Rdecide. reflexivity.
Qed.

Example _pmf_single_value : _pmf [7; 7] [7] = Ok [Fin (2 / 2)].
Proof.
  rewrite _pmf_cons. Rrun. cbn. Rdecide. reflexivity.
Qed.

Example ks_example :
  exists r, ks_2samp_statistic [1] [2] = Ok (Fin r) /\ r = 1.
Proof.
  unfold ks_2samp_statistic. Rrun. cbn -[Rmin Rmax].
  eexists. split; [reflexivity |].
  unfold clip, Rmin, Rmax. repeat (destruct (Rle_dec _ _)); lra.
Qed.

Example min_distance_same_samples :
  exists r, distance_pior_posterior [1; 2] [1; 2] "min" true = Ok (Fin r)
            /\ r = 0.
Proof.
  unfold distance_pior_posterior, probability_functions.
  cbn -[_pmf unique min_overlap]. Rrun. rewrite _pmf_cons. Rrun.
  cbn -[Rmin]. Rdecide. cbn -[Rmin]. eexists. split; [reflexivity |].
  rewrite Rmin_left by lra. lra.
Qed.

Example solver_default_bracket_mean :
  exists a b,
    get_beta_params_from_mu_sigma (5 / 10) (1 / 10) default_bracket = Ok (a, b)
    /\ 0 < a /\ 0 < b /\ a / (a + b) = 5 / 10.
Proof.
  destruct (root_scalar_brentq_finds (1 / 10) (5 / 10) 100)
    as [b [Hroot [Hin _]]]; try lra.
  { pose proof f_spec_default_bracket. nra. }
  rewrite Rmin_left in Hin by lra.
  exists (b / (1 / (5 / 10) - 1)), b. split; [| split; [| split]].
  - unfold default_bracket. apply solver_returns; [exact Hroot | lra | lra].
  - apply Rdiv_lt_0_compat; lra.
  - lra.
  - field. lra.
Qed.

(** * Further properties of the code *)

(** ** What the solver's result means *)

(** A successful call on a positive bracket: the root finder did not see the
    same strict sign at both ends, [b] is a zero of f inside the bracket, and
    both divisions were defined. *)
Lemma solver_ok_inv (mu sigma lo hi a b : R) :
  sigma <> 0 -> 0 < lo -> 0 < hi ->
  get_beta_params_from_mu_sigma mu sigma (lo, hi) = Ok (a, b) ->
  f_spec sigma lo * f_spec sigma hi <= 0
  /\ Rmin lo hi <= b <= Rmax lo hi
  /\ f_spec sigma b = 0
  /\ mu <> 0 /\ 1 / mu - 1 <> 0
  /\ a = b / (1 / mu - 1).
Proof.
  intros Hs Hlo Hhi Hok.
  assert (Hprod : f_spec sigma lo * f_spec sigma hi <= 0).
  { destruct (Rle_dec (f_spec sigma lo * f_spec sigma hi) 0) as [H | H];
      [exact H |].
    unfold get_beta_params_from_mu_sigma in Hok.
    rewrite root_scalar_brentq_same_sign in Hok by lra. discriminate. }
  destruct (root_scalar_brentq_finds sigma lo hi Hs Hlo Hhi Hprod)
    as [b' [Hroot [Hin Hzero]]].
  unfold get_beta_params_from_mu_sigma in Hok. rewrite Hroot in Hok.
  cbn [bind] in Hok. unfold pydiv in Hok.
  destruct (Req_dec_T mu 0) as [Hmu | Hmu];
    [rewrite (Reqb_true _ _ Hmu) in Hok; discriminate |].
  rewrite (Reqb_false _ _ Hmu) in Hok. cbn [bind] in Hok.
  destruct (Req_dec_T (1 / mu - 1) 0) as [Hden | Hden];
    [rewrite (Reqb_true _ _ Hden) in Hok; discriminate |].
  rewrite (Reqb_false _ _ Hden) in Hok. cbn [bind] in Hok.
  injection Hok as Ha Hb. subst b'. repeat split; try assumption; try lra.
Qed.

Lemma bracket_positive (lo hi b : R) :
  0 < lo -> 0 < hi -> Rmin lo hi <= b -> 0 < b.
Proof.
  intros Hlo Hhi Hb. unfold Rmin in Hb. destruct (Rle_dec lo hi); lra.
Qed.

Lemma solver_succeeds_default :
  exists a b,
    get_beta_params_from_mu_sigma (1 / 2) (1 / 10) (5 / 10, 100) = Ok (a, b).
Proof.
  destruct (root_scalar_brentq_finds (1 / 10) (5 / 10) 100)
    as [b [Hroot _]]; try lra.
  { pose proof f_spec_default_bracket. nra. }
  exists (b / (1 / (1 / 2) - 1)), b.
  apply solver_returns; [exact Hroot | lra | lra].
Qed.

(** X1. Whenever the solver returns a pair (a, b) on a bracket with positive
    end points, the mean a / (a + b) of the Beta distribution with these
    parameters is exactly the requested mu, whatever sigma was. *)
Theorem beta_solver_matches_mean (mu sigma lo hi a b : R) :
  sigma <> 0 -> 0 < lo -> 0 < hi ->
  get_beta_params_from_mu_sigma mu sigma (lo, hi) = Ok (a, b) ->
  0 < b /\ a / (a + b) = mu.
Proof.
  intros Hs Hlo Hhi Hok.
  destruct (solver_ok_inv mu sigma lo hi a b Hs Hlo Hhi Hok)
    as [_ [[Hin _] [_ [Hmu [Hden Ha]]]]].
  pose proof (bracket_positive lo hi b Hlo Hhi Hin) as Hb.
  split; [exact Hb |].
  assert (H1 : 1 - mu <> 0).
  { intros H. apply Hden. replace mu with 1 by lra. field. }
  subst a. field. repeat split; lra.
Qed.

Lemma beta_solver_matches_mean_witness :
  exists a b,
    get_beta_params_from_mu_sigma (1 / 2) (1 / 10) (5 / 10, 100) = Ok (a, b)
    /\ 0 < b /\ a / (a + b) = 1 / 2.
Proof.
  destruct solver_succeeds_default as [a [b Hok]].
  exists a, b. split; [exact Hok |].
  apply (beta_solver_matches_mean (1 / 2) (1 / 10) (5 / 10) 100 a b);
    [lra | lra | lra | exact Hok].
Defined.



Lemma f_spec_default_ends (sigma : R) :
  f_spec sigma (5 / 10) = 45 / 4 - 1 / sigma ^ 2
  /\ f_spec sigma 100 = 520251 / 50 - 1 / sigma ^ 2.
Proof. unfold f_spec. split; lra. Qed.

(** X3. With the default bracket (0.5, 100), a mean strictly between 0 and
    1 and a non-zero sigma, the solver succeeds exactly when sigma squared
    lies between 50/520251 and 4/45 (sigma roughly between 0.0098 and
    0.298), and then b lies in the bracket and a is positive; for any other
    sigma it raises the root finder's ValueError. *)
Theorem default_bracket_sigma_range (mu sigma : R) :
  0 < mu < 1 -> sigma <> 0 ->
  (50 / 520251 <= sigma ^ 2 <= 4 / 45 ->
   exists a b,
     get_beta_params_from_mu_sigma mu sigma default_bracket = Ok (a, b)
     /\ 0 < a /\ 5 / 10 <= b <= 100)
  /\ (sigma ^ 2 < 50 / 520251 \/ 4 / 45 < sigma ^ 2 ->
      get_beta_params_from_mu_sigma mu sigma default_bracket
      = Raise ValueError).
Proof.
  intros Hmu Hs.
  destruct (f_spec_default_ends sigma) as [Hlo Hhi].
  assert (Hs2 : 0 < sigma ^ 2).
  { pose proof (pow2_ge_0 sigma). pose proof (pow_nonzero sigma 2 Hs). lra. }
  set (u := 1 / sigma ^ 2) in *.
  assert (Hu : u * sigma ^ 2 = 1) by (unfold u; field; lra).
  assert (Hupos : 0 < u) by (unfold u; apply Rdiv_lt_0_compat; lra).
  unfold default_bracket. split.
  - intros [H1 H2].
    assert (Hprod : f_spec sigma (5 / 10) * f_spec sigma 100 <= 0).
    { rewrite Hlo, Hhi.
      assert (45 / 4 <= u) by nra.
      assert (u <= 520251 / 50) by nra.
      nra. }
    destruct (root_scalar_brentq_finds sigma (5 / 10) 100)
      as [b [Hroot [Hin _]]]; try lra.
    rewrite Rmin_left, Rmax_right in Hin by lra.
    assert (Hinv : 1 < / mu).
    { rewrite <- Rinv_1. apply Rinv_lt_contravar; lra. }
    exists (b / (1 / mu - 1)), b. split; [| split].
    + apply solver_returns; [exact Hroot | lra | unfold Rdiv; lra].
    + apply Rdiv_lt_0_compat; unfold Rdiv; lra.
    + exact Hin.
  - intros H.
    assert (Hprod : 0 < f_spec sigma (5 / 10) * f_spec sigma 100).
    { rewrite Hlo, Hhi. destruct H as [H | H].
      - assert (520251 / 50 < u) by nra. nra.
      - assert (u < 45 / 4) by nra. nra. }
    unfold get_beta_params_from_mu_sigma.
    rewrite root_scalar_brentq_same_sign by lra. reflexivity.
Qed.

Lemma default_bracket_sigma_range_witness :
  exists a b,
    get_beta_params_from_mu_sigma (1 / 4) (2 / 10) default_bracket = Ok (a, b)
    /\ 0 < a /\ 5 / 10 <= b <= 100.
Proof.
  apply (default_bracket_sigma_range (1 / 4) (2 / 10)); lra.
Defined.

(** *** The zero of f in a bracket is unique *)





(** ** Half-normal helpers: size of the conversion *)

Lemma sqrt2_lt_sqrtPI : sqrt 2 < sqrt PI.
Proof.
  apply sqrt_lt_1; [lra | left; exact PI_RGT_0 |].
  pose proof PI2_3_2. lra.
Qed.

(** X5. For a positive scale the half-normal mean is positive and strictly
    smaller than the scale; conversely the scale recovered from a positive
    mean is strictly larger than that mean. *)
Theorem halfnormal_mean_below_scale (v : R) :
  0 < v ->
  0 < get_halfnormal_mean_from_scale v < v
  /\ v < get_halfnormal_scale_from_mean v.
Proof.
  intros Hv.
  pose proof sqrt2_pos as H2. pose proof sqrtPI_pos as Hpi.
  pose proof sqrt2_lt_sqrtPI as Hlt.
  unfold get_halfnormal_mean_from_scale, get_halfnormal_scale_from_mean.
  assert (Hr1 : 0 < sqrt 2 / sqrt PI < 1).
  { split; [apply Rdiv_lt_0_compat; lra |].
    apply (Rmult_lt_reg_r (sqrt PI)); [lra |].
    unfold Rdiv. rewrite Rmult_assoc, Rinv_l by lra. lra. }
  assert (Hr2 : 1 < sqrt PI / sqrt 2).
  { apply (Rmult_lt_reg_r (sqrt 2)); [lra |].
    unfold Rdiv. rewrite Rmult_assoc, Rinv_l by lra. lra. }
  replace (v * sqrt 2 / sqrt PI) with (v * (sqrt 2 / sqrt PI))
    by (unfold Rdiv; ring).
  replace (v * sqrt PI / sqrt 2) with (v * (sqrt PI / sqrt 2))
    by (unfold Rdiv; ring).
  nra.
Qed.

Lemma halfnormal_mean_below_scale_witness :
  0 < get_halfnormal_mean_from_scale 3 < 3
  /\ 3 < get_halfnormal_scale_from_mean 3.
Proof.
  apply (halfnormal_mean_below_scale 3). lra.
Defined.

(** ** The discrete estimator as relative frequencies *)

Lemma sorted_nth_lt (x : list R) (i j : nat) :
  StronglySorted Rlt x -> (i < j)%nat -> (j < length x)%nat ->
  nth i x 0 < nth j x 0.
Proof.
  intros Hs. revert i j.
  induction Hs as [| a l Hs IH Ha]; intros i j Hij Hj; cbn in Hj; [lia |].
  destruct j as [| j]; [lia |].
  destruct i as [| i]; cbn [nth].
  - rewrite Forall_forall in Ha. apply Ha, nth_In. lia.
  - apply IH; lia.
Qed.

Lemma sorted_nth_le (x : list R) (i j : nat) :
  StronglySorted Rlt x -> (i <= j)%nat -> (j < length x)%nat ->
  nth i x 0 <= nth j x 0.
Proof.
  intros Hs Hij Hj. destruct (Nat.eq_dec i j) as [-> | Hne]; [lra |].
  left. apply sorted_nth_lt; [exact Hs | lia | exact Hj].
Qed.

Lemma count_le_step (s : list R) (w v : R) :
  w < v -> (forall u, In u s -> w < u -> u < v -> False) ->
  count_le s v = (count_le s w + count_eq s v)%Z.
Proof.
  intros Hwv Hgap. unfold count_le, count_eq.
  rewrite <- Nat2Z.inj_add. f_equal.
  induction s as [| h t IH]; [reflexivity |].
  assert (IHt : length (filter (fun s0 => Rleb s0 v) t)
                = (length (filter (fun s0 => Rleb s0 w) t)
                   + length (filter (fun u => Reqb u v) t))%nat).
  { apply IH. intros u Hu. apply Hgap. now right. }
  cbn [filter].
  destruct (Rle_dec h w) as [Hhw | Hhw].
  - rewrite (Rleb_true h w Hhw), (Rleb_true h v) by lra.
    rewrite (Reqb_false h v) by lra. cbn [length]. lia.
  - rewrite (Rleb_false h w Hhw).
    destruct (Req_dec_T h v) as [Hhv | Hhv].
    + rewrite (Reqb_true h v Hhv), (Rleb_true h v) by lra. cbn [length]. lia.
    + rewrite (Reqb_false h v Hhv).
      assert (Hnle : ~ h <= v).
      { intros Hle. apply (Hgap h); [now left | lra | lra]. }
      rewrite (Rleb_false h v Hnle). exact IHt.
Qed.

Lemma count_le_first (s : list R) (v : R) :
  (forall u, In u s -> u < v -> False) -> count_le s v = count_eq s v.
Proof.
  intros Hgap. unfold count_le, count_eq. f_equal.
  induction s as [| h t IH]; [reflexivity |].
  assert (IHt : length (filter (fun s0 => Rleb s0 v) t)
                = length (filter (fun u => Reqb u v) t)).
  { apply IH. intros u Hu. apply Hgap. now right. }
  cbn [filter].
  destruct (Req_dec_T h v) as [Hhv | Hhv].
  - rewrite (Reqb_true h v Hhv), (Rleb_true h v) by lra. cbn [length]. lia.
  - rewrite (Reqb_false h v Hhv).
    assert (Hnle : ~ h <= v).
    { intros Hle. apply (Hgap h); [now left | lra]. }
    rewrite (Rleb_false h v Hnle). exact IHt.
Qed.

(** On a strictly increasing grid that contains every sample, the count
    difference at a grid point is the number of samples equal to it. *)
Lemma mass_count_is_count_eq (s x : list R) (i : nat) :
  StronglySorted Rlt x -> (forall u, In u s -> In u x) ->
  (i < length x)%nat ->
  mass_count s x i = count_eq s (nth i x 0).
Proof.
  intros Hs Hin Hi.
  assert (Hidx : forall u, In u s -> exists k, (k < length x)%nat /\ nth k x 0 = u).
  { intros u Hu. apply In_nth. now apply Hin. }
  destruct i as [| j]; cbn [mass_count].
  - apply count_le_first. intros u Hu Hlt.
    destruct (Hidx u Hu) as [k [Hk <-]].
    pose proof (sorted_nth_le x 0 k Hs ltac:(lia) Hk). lra.
  - rewrite (count_le_step s (nth j x 0) (nth (S j) x 0)); [lia | |].
    + apply sorted_nth_lt; [exact Hs | lia | exact Hi].
    + intros u Hu H1 H2. destruct (Hidx u Hu) as [k [Hk <-]].
      destruct (Nat.le_gt_cases k j) as [Hkj | Hkj].
      * pose proof (sorted_nth_le x k j Hs Hkj ltac:(lia)). lra.
      * pose proof (sorted_nth_le x (S j) k Hs ltac:(lia) Hk). lra.
Qed.

Lemma _pmf_frequency (s x : list R) :
  StronglySorted Rlt x -> (forall u, In u s -> In u x) -> s <> [] ->
  exists masses,
    _pmf s x = Ok (map Fin masses)
    /\ length masses = length x
    /\ probability_vector masses
    /\ forall i, (i < length x)%nat ->
         nth i masses 0 = IZR (count_eq s (nth i x 0)) / INR (length s).
Proof.
  intros Hs Hin Hne.
  destruct (_pmf_on_grid s x Hs Hin Hne) as [Htotal [Hpos Hpmf]].
  set (raw := map (mass_count s x) (seq 0 (length x))) in *.
  exists (map (fun c => IZR c / IZR (Zsum raw)) raw).
  split; [exact Hpmf |]. split; [| split].
  - unfold raw. now rewrite !length_map, length_seq.
  - apply pmf_masses_probability; [| exact Hpos].
    rewrite Htotal. destruct s; [congruence | cbn [length]; lia].
  - intros i Hi.
    rewrite (nth_map_in _ raw i 0%Z)
      by (unfold raw; rewrite length_map, length_seq; exact Hi).
    unfold raw at 1.
    rewrite (nth_map_in _ _ i 0%nat) by (rewrite length_seq; exact Hi).
    rewrite seq_nth by exact Hi. cbn [Nat.add].
    rewrite Htotal, <- INR_IZR_INZ.
    now rewrite mass_count_is_count_eq.
Qed.

(** X6. On a strictly increasing grid that contains every sample of a
    non-empty collection, the mass the discrete estimator gives to a grid
    point is the relative frequency of that value among the samples: the
    number of samples equal to it divided by the number of samples. *)
Theorem pmf_is_relative_frequency (s x : list R) :
  StronglySorted Rlt x -> (forall u, In u s -> In u x) -> s <> [] ->
  exists masses,
    _pmf s x = Ok (map Fin masses)
    /\ length masses = length x
    /\ forall i, (i < length x)%nat ->
         nth i masses 0 = IZR (count_eq s (nth i x 0)) / INR (length s).
Proof.
  intros Hs Hin Hne.
  destruct (_pmf_frequency s x Hs Hin Hne) as [masses [H1 [H2 [_ H3]]]].
  exists masses. tauto.
Qed.

Lemma sorted_1_2_3 : StronglySorted Rlt [1; 2; 3].
Proof.
  repeat constructor; lra.
Qed.

Lemma pmf_is_relative_frequency_witness :
  exists masses,
    _pmf [1; 1; 3] [1; 2; 3] = Ok (map Fin masses)
    /\ length masses = length [1; 2; 3]
    /\ forall i, (i < length [1; 2; 3])%nat ->
         nth i masses 0
         = IZR (count_eq [1; 1; 3] (nth i [1; 2; 3] 0)) / INR (length [1; 1; 3]).
Proof.
  apply (pmf_is_relative_frequency [1; 1; 3] [1; 2; 3]).
  - exact sorted_1_2_3.
  - intros u Hu. cbn in *. destruct Hu as [<- | [<- | [<- | []]]]; auto.
  - discriminate.
Defined.

(** ** When the discrete estimator returns numbers *)

Lemma _pmf_zero_counts (s : list R) (a : R) (l : list R) :
  map (count_le s) (a :: l) = map (fun _ => 0%Z) (a :: l) ->
  _pmf s (a :: l) = Ok (map (fun _ => NaN) (a :: l)).
Proof.
  intros Hz. rewrite _pmf_cons.
  assert (Ha : count_le s a = 0%Z) by (cbn [map] in Hz; congruence).
  rewrite Hz, (diff_zeros (a :: l)), Ha. cbn [tl].
  change (0%Z :: map (fun _ : R => 0%Z) l) with (map (fun _ : R => 0%Z) (a :: l)).
  rewrite Zsum_zeros, map_map. apply f_equal. apply map_ext.
  intros _. apply fdiv_zero_zero.
Qed.

Lemma count_le_zero (s : list R) (v : R) :
  (forall u, In u s -> v < u) -> count_le s v = 0%Z.
Proof.
  intros Hall. unfold count_le.
  induction s as [| h t IH]; [reflexivity |].
  cbn [filter]. rewrite Rleb_false.
  - apply IH. intros u Hu. apply Hall. now right.
  - specialize (Hall h (or_introl eq_refl)). lra.
Qed.

Lemma count_le_pos (s : list R) (v u : R) :
  In u s -> u <= v -> (0 < count_le s v)%Z.
Proof.
  intros Hin Hle. unfold count_le.
  induction s as [| h t IH]; [destruct Hin |].
  cbn [filter]. destruct Hin as [-> | Hin].
  - rewrite (Rleb_true u v Hle). cbn [length]. lia.
  - specialize (IH Hin). destruct (Rleb h v); cbn [length]; lia.
Qed.

(** X13. On any strictly increasing non-empty grid (which need not contain
    the samples), the discrete estimator returns a probability vector as
    soon as one sample is at or below the largest grid point; when every
    sample is above the largest grid point (in particular when there is no
    sample) all counts are zero and it returns a vector of [nan]. *)
Theorem pmf_finite_or_nan (s : list R) (a : R) (l : list R) :
  StronglySorted Rlt (a :: l) ->
  ((exists u, In u s /\ u <= last l a) ->
   exists masses,
     _pmf s (a :: l) = Ok (map Fin masses)
     /\ length masses = length (a :: l)
     /\ probability_vector masses)
  /\ ((forall u, In u s -> last l a < u) ->
      _pmf s (a :: l) = Ok (map (fun _ => NaN) (a :: l))).
Proof.
  intros Hsorted. split.
  - intros [u [Hu Hle]].
    set (raw := count_le s a :: diff (map (count_le s) (a :: l))).
    assert (Htotal : (0 < Zsum raw)%Z).
    { unfold raw. rewrite pmf_raw_total. now apply (count_le_pos s _ u). }
    assert (Hpos : Forall (fun c => (0 <= c)%Z) raw).
    { unfold raw. constructor; [apply count_le_nonneg |].
      now apply diff_nonneg. }
    exists (map (fun c => IZR c / IZR (Zsum raw)) raw).
    split; [| split].
    + rewrite _pmf_cons. fold raw. apply f_equal.
      rewrite map_map. apply map_ext. intros c. apply fdiv_fin.
      apply not_0_IZR. lia.
    + rewrite length_map. unfold raw. cbn [length].
      now rewrite diff_length, length_map.
    + apply pmf_masses_probability; [lia | exact Hpos].
  - intros Habove. apply _pmf_zero_counts.
    apply map_ext_in. intros v Hv. apply count_le_zero.
    intros u Hu. specialize (Habove u Hu).
    pose proof (sorted_le_last a l Hsorted v Hv). lra.
Qed.

Lemma pmf_finite_or_nan_witness :
  _pmf [5; 7] [1; 2; 3] = Ok (map (fun _ => NaN) [1; 2; 3]).
Proof.
  apply (pmf_finite_or_nan [5; 7] 1 [2; 3]).
  - exact sorted_1_2_3.
  - intros u Hu. cbn in *. destruct Hu as [<- | [<- | []]]; lra.
Defined.

(** ** The "min" method *)

Lemma fminimum_terms_fin (P Q : list R) :
  map2 fminimum (map Fin P) (map Fin Q) = map Fin (map2 Rmin P Q).
Proof.
  unfold map2. revert Q.
  induction P as [| a P IH]; intros [| b Q]; cbn; try reflexivity.
  now rewrite IH.
Qed.

Lemma min_overlap_fin (P Q : list R) :
  min_overlap (map Fin P) (map Fin Q) = Fin (overlap_distance P Q).
Proof.
  unfold min_overlap, overlap_distance.
  now rewrite fminimum_terms_fin, fsum_fin.
Qed.

Lemma map2_cons {A B C : Type} (f : A -> B -> C) (a : A) (b : B)
  (l : list A) (m : list B) :
  map2 f (a :: l) (b :: m) = f a b :: map2 f l m.
Proof. reflexivity. Qed.

Lemma Rsum_cons (a : R) (l : list R) : Rsum (a :: l) = a + Rsum l.
Proof. reflexivity. Qed.

Lemma Rsum_min_le_both (P Q : list R) :
  length P = length Q ->
  Rsum (map2 Rmin P Q) <= Rsum P /\ Rsum (map2 Rmin P Q) <= Rsum Q.
Proof.
  revert Q.
  induction P as [| a P IH]; intros [| b Q] Hlen; try discriminate.
  - cbn. lra.
  - injection Hlen as Hlen. destruct (IH Q Hlen) as [H1 H2].
    rewrite map2_cons, !Rsum_cons.
    pose proof (Rmin_l a b). pose proof (Rmin_r a b). lra.
Qed.

Lemma Rsum_min_nonneg (P Q : list R) :
  Forall (fun m => 0 <= m) P -> Forall (fun m => 0 <= m) Q ->
  0 <= Rsum (map2 Rmin P Q).
Proof.
  intros HP. revert Q.
  induction HP as [| a P Ha HP IH]; intros Q HQ; [cbn; lra |].
  destruct HQ as [| b Q Hb HQ]; [cbn; lra |].
  rewrite map2_cons, Rsum_cons. specialize (IH Q HQ).
  assert (0 <= Rmin a b) by (unfold Rmin; destruct (Rle_dec a b); lra).
  lra.
Qed.

(** If the pointwise minima of two vectors of the same length sum to the
    sum of each vector, the two vectors are equal. *)
Lemma Rsum_min_full (P Q : list R) :
  length P = length Q ->
  Rsum (map2 Rmin P Q) = Rsum P -> Rsum (map2 Rmin P Q) = Rsum Q ->
  P = Q.
Proof.
  revert Q.
  induction P as [| a P IH]; intros [| b Q] Hlen HP HQ;
    try discriminate; [reflexivity |].
  injection Hlen as Hlen.
  rewrite map2_cons, !Rsum_cons in HP, HQ.
  destruct (Rsum_min_le_both P Q Hlen) as [H1 H2].
  pose proof (Rmin_l a b) as Hl. pose proof (Rmin_r a b) as Hr.
  assert (Ha : Rmin a b = a) by lra.
  assert (Hb : Rmin a b = b) by lra.
  f_equal; [lra |]. apply IH; [exact Hlen | lra | lra].
Qed.

Lemma Rsum_min_same (P : list R) : Rsum (map2 Rmin P P) = Rsum P.
Proof.
  induction P as [| a P IH]; [reflexivity |].
  rewrite map2_cons, !Rsum_cons, IH.
  rewrite Rmin_left by lra. reflexivity.
Qed.

Lemma overlap_distance_range (P Q : list R) :
  length P = length Q -> probability_vector P -> probability_vector Q ->
  0 <= overlap_distance P Q <= 1
  /\ (overlap_distance P Q = 0 <-> P = Q).
Proof.
  intros Hlen [HP HsP] [HQ HsQ]. unfold overlap_distance.
  destruct (Rsum_min_le_both P Q Hlen) as [H1 H2].
  pose proof (Rsum_min_nonneg P Q HP HQ) as H0.
  split; [lra |]. split.
  - intros Hz. apply Rsum_min_full; [exact Hlen | lra | lra].
  - intros ->. rewrite Rsum_min_same. lra.
Qed.

Lemma distance_min_unfold (p q : list R) (discrete : bool)
  (v : list float64 * list float64) :
  probability_functions p q discrete = Ok v ->
  distance_pior_posterior p q "min" discrete
  = Ok (min_overlap (fst v) (snd v)).
Proof.
  intros H. unfold distance_pior_posterior.
  cbn -[min_overlap probability_functions]. now rewrite H.
Qed.

(** X8. For two non-empty sample collections the discrete estimator always
    gives two vectors of numbers; and with either estimator, whenever the
    two vectors hold numbers only, the "min" method returns one minus the
    sum of the pointwise minima of the two probability vectors, a value in
    [0, 1] that is 0 exactly when the two vectors are equal. *)
Theorem min_method_correct (p q : list R) (discrete : bool) :
  p <> [] -> q <> [] ->
  (discrete = true ->
   exists P Q, probability_functions p q discrete = Ok (map Fin P, map Fin Q))
  /\ forall P Q,
       probability_functions p q discrete = Ok (map Fin P, map Fin Q) ->
       distance_pior_posterior p q "min" discrete
       = Ok (Fin (overlap_distance P Q))
       /\ 0 <= overlap_distance P Q <= 1
       /\ (overlap_distance P Q = 0 <-> P = Q).
Proof.
  intros Hp Hq. split; [now apply finite_when_discrete |].
  intros P Q Hpf.
  destruct (probability_functions_fin p q discrete P Q Hp Hq Hpf)
    as [Hlen [HvP HvQ]].
  split.
  - rewrite (distance_min_unfold p q discrete _ Hpf). cbn [fst snd].
    now rewrite min_overlap_fin.
  - now apply overlap_distance_range.
Qed.

Lemma min_method_correct_witness :
  exists P Q,
    probability_functions [1; 1; 3] [2] true = Ok (map Fin P, map Fin Q)
    /\ distance_pior_posterior [1; 1; 3] [2] "min" true
       = Ok (Fin (overlap_distance P Q))
    /\ 0 <= overlap_distance P Q <= 1
    /\ (overlap_distance P Q = 0 <-> P = Q).
Proof.
  destruct (min_method_correct [1; 1; 3] [2] true)
    as [Hex Hall]; [discriminate | discriminate |].
  destruct (Hex eq_refl) as [P [Q Hpf]].
  exists P, Q. split; [exact Hpf | now apply Hall].
Defined.

(** ** The Kolmogorov-Smirnov statistic as a largest difference *)

Lemma ecdf_bounds (s : list R) (v : R) : s <> [] -> 0 <= ecdf s v <= 1.
Proof. intros Hs. unfold ecdf. now apply ecdf_range. Qed.

Lemma Rabs_le_max (c : R) : Rabs c = Rmax c (- c).
Proof.
  unfold Rabs, Rmax. destruct (Rcase_abs c), (Rle_dec c (- c)); lra.
Qed.

Lemma ks_2samp_statistic_gap (p q : list R) :
  p <> [] -> q <> [] ->
  exists d,
    ks_2samp_statistic p q = Ok (Fin d)
    /\ 0 <= d <= 1
    /\ (forall v, In v (p ++ q) -> Rabs (ecdf p v - ecdf q v) <= d)
    /\ (exists v, In v (p ++ q) /\ Rabs (ecdf p v - ecdf q v) = d).
Proof.
  intros Hp Hq.
  destruct p as [| a p']; [congruence |].
  destruct q as [| b q']; [congruence |].
  set (p := a :: p') in *. set (q := b :: q') in *.
  unfold ks_2samp_statistic. fold p q. cbv zeta.
  change (fun v => IZR (count_le p v) / INR (length p)
                   - IZR (count_le q v) / INR (length q))
    with (fun v => ecdf p v - ecdf q v).
  set (c := fun v => ecdf p v - ecdf q v).
  assert (Hrange : forall v, -1 <= c v <= 1).
  { intros v. unfold c.
    pose proof (ecdf_bounds p v Hp). pose proof (ecdf_bounds q v Hq). lra. }
  change (map c (p ++ q)) with (c a :: map c (p' ++ q)). cbv iota.
  set (d0 := c a). set (ds := map c (p' ++ q)).
  assert (Hl : forall w, In w (d0 :: ds) <-> exists v, In v (p ++ q) /\ w = c v).
  { intros w. change (d0 :: ds) with (map c (p ++ q)). rewrite in_map_iff.
    split; intros [v [H1 H2]]; exists v; auto. }
  destruct (fold_left_Rmin_spec ds d0) as [Hmn_in Hmn_le].
  destruct (fold_left_Rmax_spec ds d0) as [Hmx_in Hmx_le].
  set (mn := fold_left Rmin ds d0) in *. set (mx := fold_left Rmax ds d0) in *.
  assert (Hmnmx : mn <= mx) by (apply Hmn_le; exact Hmx_in).
  assert (Hmx1 : mx <= 1).
  { apply Hl in Hmx_in. destruct Hmx_in as [v [_ ->]]. apply Hrange. }
  assert (Hmn1 : -1 <= mn).
  { apply Hl in Hmn_in. destruct Hmn_in as [v [_ ->]]. apply Hrange. }
  assert (Hd : Rmax (clip (- mn) 0 1) mx = Rmax mx (- mn)).
  { unfold clip, Rmin, Rmax. repeat (destruct (Rle_dec _ _)); lra. }
  eexists. split; [reflexivity |]. rewrite Hd.
  split; [unfold Rmax; destruct (Rle_dec mx (- mn)); lra |].
  split.
  - intros v Hv. fold (c v).
    assert (Hin : In (c v) (d0 :: ds)).
    { apply Hl. exists v. split; [exact Hv | reflexivity]. }
    pose proof (Hmn_le _ Hin). pose proof (Hmx_le _ Hin).
    rewrite Rabs_le_max. unfold Rmax.
    repeat (destruct (Rle_dec _ _)); lra.
  - unfold Rmax at 1. destruct (Rle_dec mx (- mn)) as [Hle | Hle].
    + apply Hl in Hmn_in. destruct Hmn_in as [v [Hv Hcv]].
      exists v. split; [exact Hv |]. fold (c v). rewrite <- Hcv.
      rewrite Rabs_le_max. unfold Rmax. destruct (Rle_dec mn (- mn)); lra.
    + apply Hl in Hmx_in. destruct Hmx_in as [v [Hv Hcv]].
      exists v. split; [exact Hv |]. fold (c v). rewrite <- Hcv.
      rewrite Rabs_le_max. unfold Rmax. destruct (Rle_dec mx (- mx)); lra.
Qed.

(** X9. For two non-empty sample collections the "KS" method (whatever the
    discrete flag) returns a number d in [0, 1] that is the largest absolute
    difference between the two empirical distribution functions over the
    pooled samples: no pooled point exceeds d and some pooled point attains
    it. *)
Theorem ks_method_is_largest_gap (p q : list R) (discrete : bool) :
  p <> [] -> q <> [] ->
  exists d,
    distance_pior_posterior p q "KS" discrete = Ok (Fin d)
    /\ 0 <= d <= 1
    /\ (forall v, In v (p ++ q) -> Rabs (ecdf p v - ecdf q v) <= d)
    /\ (exists v, In v (p ++ q) /\ Rabs (ecdf p v - ecdf q v) = d).
Proof.
  intros Hp Hq. unfold distance_pior_posterior. cbn -[ks_2samp_statistic].
  now apply ks_2samp_statistic_gap.
Qed.

Lemma ks_method_is_largest_gap_witness :
  exists d,
    distance_pior_posterior [1; 4] [2] "KS" true = Ok (Fin d)
    /\ 0 <= d <= 1
    /\ (forall v, In v ([1; 4] ++ [2]) ->
          Rabs (ecdf [1; 4] v - ecdf [2] v) <= d)
    /\ (exists v, In v ([1; 4] ++ [2])
                  /\ Rabs (ecdf [1; 4] v - ecdf [2] v) = d).
Proof.
  apply (ks_method_is_largest_gap [1; 4] [2] true); discriminate.
Defined.

(** ** The Jensen-Shannon branch *)

Lemma rel_entr_fin (a m : R) :
  0 <= a -> (0 < a -> 0 < m) -> 0 <= m ->
  rel_entr (Fin a) (Fin m) = Fin (rel_entr_R a m).
Proof.
  intros Ha Ham Hm. unfold rel_entr, rel_entr_R. cbn [fpositive fzero fnonneg].
  destruct (Rlt_dec 0 a) as [Hpos | Hz].
  - specialize (Ham Hpos).
    rewrite (Rltb_true 0 a Hpos), (Rltb_true 0 m Ham). cbn [andb].
    rewrite fdiv_fin by lra. cbn [flog fmul].
    rewrite Rltb_true; [reflexivity |].
    apply Rdiv_lt_0_compat; assumption.
  - rewrite (Rltb_false 0 a Hz). cbn [andb].
    rewrite Reqb_true by lra. rewrite Rleb_true by exact Hm. reflexivity.
Qed.

Lemma normalise_fin (P : list R) :
  Rsum P = 1 ->
  map (fun a => fdiv a (fsum (map Fin P))) (map Fin P) = map Fin P.
Proof.
  intros HP. rewrite fsum_fin, HP, map_map. apply map_ext.
  intros a. rewrite fdiv_fin by lra. f_equal. field.
Qed.

Lemma midpoint_fin (P Q : list R) :
  map2 (fun a b => fdiv (fadd a b) (Fin 2)) (map Fin P) (map Fin Q)
  = map Fin (map2 (fun a b => (a + b) / 2) P Q).
Proof.
  revert Q.
  induction P as [| a P IH]; intros [| b Q]; try reflexivity.
  cbn [map]. rewrite !map2_cons. cbn [map]. rewrite IH. f_equal.
  cbn [fadd]. apply fdiv_fin. lra.
Qed.

Lemma rel_entr_left_fin (P Q : list R) :
  Forall (fun m => 0 <= m) P -> Forall (fun m => 0 <= m) Q ->
  map2 rel_entr (map Fin P) (map Fin (map2 (fun a b => (a + b) / 2) P Q))
  = map Fin (map2 rel_entr_R P (map2 (fun a b => (a + b) / 2) P Q)).
Proof.
  intros HP. revert Q.
  induction HP as [| a P Ha _ IH]; intros Q HQ; [reflexivity |].
  destruct HQ as [| b Q Hb HQ]; [reflexivity |].
  rewrite map2_cons. cbn [map]. rewrite !map2_cons. cbn [map].
  rewrite IH by exact HQ. f_equal. apply rel_entr_fin; lra.
Qed.

Lemma rel_entr_right_fin (P Q : list R) :
  Forall (fun m => 0 <= m) P -> Forall (fun m => 0 <= m) Q ->
  map2 rel_entr (map Fin Q) (map Fin (map2 (fun a b => (a + b) / 2) P Q))
  = map Fin (map2 rel_entr_R Q (map2 (fun a b => (a + b) / 2) P Q)).
Proof.
  intros HP. revert Q.
  induction HP as [| a P Ha _ IH]; intros Q HQ.
  - destruct Q; reflexivity.
  - destruct HQ as [| b Q Hb HQ]; [reflexivity |].
    rewrite map2_cons. cbn [map]. rewrite !map2_cons. cbn [map].
    rewrite IH by exact HQ. f_equal. apply rel_entr_fin; lra.
Qed.

(** *** Bounds on the relative entropies *)

Lemma ln_le_sub1 (x : R) : 0 < x -> ln x <= x - 1.
Proof.
  intros Hx. pose proof (exp_ineq1_le (ln x)) as H.
  rewrite exp_ln in H by exact Hx. lra.
Qed.

Lemma ln_eq_sub1 (x : R) : 0 < x -> ln x = x - 1 -> x = 1.
Proof.
  intros Hx Heq.
  destruct (Req_dec_T (ln x) 0) as [Hz | Hnz]; [lra |].
  pose proof (exp_ineq1 (ln x) Hnz) as H.
  rewrite exp_ln in H by exact Hx. lra.
Qed.

Lemma ln_ratio_opp (a m : R) : 0 < a -> 0 < m -> ln (a / m) = - ln (m / a).
Proof.
  intros Ha Hm. rewrite <- ln_Rinv by (apply Rdiv_lt_0_compat; assumption).
  f_equal. field. split; lra.
Qed.

Lemma rel_entr_R_lower (a m : R) :
  0 <= a -> (0 < a -> 0 < m) -> 0 <= m -> a - m <= rel_entr_R a m.
Proof.
  intros Ha Ham Hm. unfold rel_entr_R.
  destruct (Rlt_dec 0 a) as [Hpos | Hz].
  - specialize (Ham Hpos). rewrite (Rltb_true 0 a Hpos).
    rewrite ln_ratio_opp by assumption.
    assert (Hr : 0 < m / a) by (apply Rdiv_lt_0_compat; assumption).
    pose proof (ln_le_sub1 (m / a) Hr) as Hln.
    assert (Hma : a * (m / a) = m) by (field; lra).
    nra.
  - rewrite (Rltb_false 0 a Hz). lra.
Qed.

Lemma rel_entr_R_lower_eq (a m : R) :
  0 <= a -> (0 < a -> 0 < m) -> 0 <= m ->
  rel_entr_R a m = a - m -> a = m.
Proof.
  intros Ha Ham Hm. unfold rel_entr_R.
  destruct (Rlt_dec 0 a) as [Hpos | Hz].
  - specialize (Ham Hpos). rewrite (Rltb_true 0 a Hpos).
    rewrite ln_ratio_opp by assumption. intros Heq.
    assert (Hr : 0 < m / a) by (apply Rdiv_lt_0_compat; assumption).
    assert (Hma : a * (m / a) = m) by (field; lra).
    assert (Hln : ln (m / a) = m / a - 1).
    { apply (Rmult_eq_reg_l a); [| lra]. lra. }
    pose proof (ln_eq_sub1 (m / a) Hr Hln) as H1.
    rewrite H1 in Hma. lra.
  - rewrite (Rltb_false 0 a Hz). lra.
Qed.

Lemma ln2_pos : 0 < ln 2.
Proof. rewrite <- ln_1. apply ln_increasing; lra. Qed.


Lemma rel_entr_R_upper (a m : R) :
  0 <= a -> a <= 2 * m -> rel_entr_R a m <= a * ln 2.
Proof.
  intros Ha Ham. unfold rel_entr_R.
  destruct (Rlt_dec 0 a) as [Hpos | Hz].
  - rewrite (Rltb_true 0 a Hpos).
    assert (Hm : 0 < m) by lra.
    assert (Hr : 0 < a / m) by (apply Rdiv_lt_0_compat; assumption).
    assert (Hle : a / m <= 2).
    { apply (Rmult_le_reg_r m); [exact Hm |].
      unfold Rdiv. rewrite Rmult_assoc, Rinv_l by lra. lra. }
    assert (Hln : ln (a / m) <= ln 2).
    { destruct Hle as [Hlt | Heq]; [left; now apply ln_increasing |].
      rewrite Heq. lra. }
    nra.
  - rewrite (Rltb_false 0 a Hz). pose proof ln2_pos. nra.
Qed.

(** The sum of the two relative entropies, term by term. *)
Lemma js_sum_terms (P Q : list R) :
  Rsum (map2 rel_entr_R P (map2 (fun a b => (a + b) / 2) P Q))
  + Rsum (map2 rel_entr_R Q (map2 (fun a b => (a + b) / 2) P Q))
  = Rsum (map2 (fun a b => rel_entr_R a ((a + b) / 2)
                           + rel_entr_R b ((a + b) / 2)) P Q).
Proof.
  revert Q.
  induction P as [| a P IH]; intros [| b Q]; try (cbn; lra).
  rewrite !map2_cons, !Rsum_cons. rewrite <- IH. ring.
Qed.

Lemma js_term_bounds (a b : R) :
  0 <= a -> 0 <= b ->
  0 <= rel_entr_R a ((a + b) / 2) + rel_entr_R b ((a + b) / 2)
    <= (a + b) * ln 2.
Proof.
  intros Ha Hb.
  pose proof (rel_entr_R_lower a ((a + b) / 2) Ha ltac:(lra) ltac:(lra)).
  pose proof (rel_entr_R_lower b ((a + b) / 2) Hb ltac:(lra) ltac:(lra)).
  pose proof (rel_entr_R_upper a ((a + b) / 2) Ha ltac:(lra)).
  pose proof (rel_entr_R_upper b ((a + b) / 2) Hb ltac:(lra)).
  lra.
Qed.

Lemma js_term_zero (a b : R) :
  0 <= a -> 0 <= b ->
  rel_entr_R a ((a + b) / 2) + rel_entr_R b ((a + b) / 2) = 0 -> a = b.
Proof.
  intros Ha Hb Hz.
  pose proof (rel_entr_R_lower a ((a + b) / 2) Ha ltac:(lra) ltac:(lra)) as H1.
  pose proof (rel_entr_R_lower b ((a + b) / 2) Hb ltac:(lra) ltac:(lra)) as H2.
  assert (Heq : rel_entr_R a ((a + b) / 2) = a - (a + b) / 2) by lra.
  apply rel_entr_R_lower_eq in Heq; lra.
Qed.

Lemma js_terms_sum_bounds (P Q : list R) :
  Forall (fun m => 0 <= m) P -> Forall (fun m => 0 <= m) Q ->
  0 <= Rsum (map2 (fun a b => rel_entr_R a ((a + b) / 2)
                              + rel_entr_R b ((a + b) / 2)) P Q)
    <= (Rsum P + Rsum Q) * ln 2.
Proof.
  intros HP. revert Q. pose proof ln2_pos as Hln.
  induction HP as [| a P Ha HP IH]; intros Q HQ.
  - cbn. pose proof (Rsum_nonneg Q HQ). nra.
  - destruct HQ as [| b Q Hb HQ].
    + cbn. fold (Rsum P). pose proof (Rsum_nonneg P HP). nra.
    + rewrite map2_cons, !Rsum_cons.
      specialize (IH Q HQ). pose proof (js_term_bounds a b Ha Hb). lra.
Qed.

Lemma js_terms_sum_zero (P Q : list R) :
  Forall (fun m => 0 <= m) P -> Forall (fun m => 0 <= m) Q ->
  length P = length Q ->
  Rsum (map2 (fun a b => rel_entr_R a ((a + b) / 2)
                         + rel_entr_R b ((a + b) / 2)) P Q) = 0 ->
  P = Q.
Proof.
  intros HP. revert Q.
  induction HP as [| a P Ha HP IH]; intros Q HQ Hlen Hz.
  - destruct Q; [reflexivity | discriminate].
  - destruct HQ as [| b Q Hb HQ]; [discriminate |].
    injection Hlen as Hlen.
    rewrite map2_cons, Rsum_cons in Hz.
    pose proof (js_term_bounds a b Ha Hb) as Ht.
    pose proof (js_terms_sum_bounds P Q HP HQ) as Hs.
    f_equal.
    + apply js_term_zero; [exact Ha | exact Hb | lra].
    + apply IH; [exact HQ | exact Hlen | lra].
Qed.

Lemma js_terms_sum_same (P : list R) :
  Forall (fun m => 0 <= m) P ->
  Rsum (map2 (fun a b => rel_entr_R a ((a + b) / 2)
                         + rel_entr_R b ((a + b) / 2)) P P) = 0.
Proof.
  induction 1 as [| a P Ha HP IH]; [reflexivity |].
  rewrite map2_cons, Rsum_cons, IH.
  unfold rel_entr_R. destruct (Rlt_dec 0 a) as [Hpos | Hz].
  - rewrite (Rltb_true 0 a Hpos).
    replace (a / ((a + a) / 2)) with 1 by (field; lra).
    rewrite ln_1. ring.
  - rewrite (Rltb_false 0 a Hz). ring.
Qed.

Lemma jensenshannon_fin (P Q : list R) :
  probability_vector P -> probability_vector Q ->
  jensenshannon (map Fin P) (map Fin Q) = Fin (js_distance P Q).
Proof.
  intros [HP HsP] [HQ HsQ]. unfold jensenshannon, js_distance. cbv zeta.
  rewrite (normalise_fin P HsP), (normalise_fin Q HsQ), midpoint_fin.
  rewrite rel_entr_left_fin, rel_entr_right_fin by assumption.
  rewrite !fsum_fin. cbn [fadd]. rewrite fdiv_fin by lra.
  apply fsqrt_fin. rewrite js_sum_terms.
  pose proof (js_terms_sum_bounds P Q HP HQ). lra.
Qed.

Lemma js_distance_range (P Q : list R) :
  length P = length Q -> probability_vector P -> probability_vector Q ->
  0 <= js_distance P Q <= sqrt (ln 2)
  /\ (js_distance P Q = 0 <-> P = Q).
Proof.
  intros Hlen [HP HsP] [HQ HsQ]. unfold js_distance. cbv zeta.
  rewrite js_sum_terms.
  pose proof (js_terms_sum_bounds P Q HP HQ) as Hb.
  rewrite HsP, HsQ in Hb.
  set (T := Rsum _) in *.
  split; [split |].
  - apply sqrt_pos.
  - apply sqrt_le_1; lra.
  - split.
    + intros Hz. apply sqrt_eq_0 in Hz; [| lra].
      apply js_terms_sum_zero; try assumption. fold T. lra.
    + intros ->. unfold T. rewrite js_terms_sum_same by exact HQ.
      replace (0 / 2) with 0 by field. apply sqrt_0.
Qed.

Lemma distance_js_unfold (p q : list R) (discrete : bool)
  (v : list float64 * list float64) :
  probability_functions p q discrete = Ok v ->
  distance_pior_posterior p q "JS" discrete
  = Ok (jensenshannon (fst v) (snd v)).
Proof.
  intros H. unfold distance_pior_posterior.
  cbn -[jensenshannon probability_functions]. now rewrite H.
Qed.



(** ** Sample ranges on which the continuous estimator cannot underflow *)







(** ** A collection compared with itself *)

Lemma probability_functions_same (p : list R) (discrete : bool)
  (A B : list float64) :
  probability_functions p p discrete = Ok (A, B) -> A = B.
Proof.
  unfold probability_functions. destruct discrete.
  - destruct (_pmf p (unique (p ++ p))) as [P | e]; cbn; [| discriminate].
    congruence.
  - destruct (array_min p) as [pmin | e]; cbn; [| discriminate].
    destruct (array_max p) as [pmax | e]; cbn; [| discriminate].
    destruct (_estimate_pdf p _) as [P | e]; cbn; [| discriminate].
    congruence.
Qed.

Lemma probability_functions_self (p : list R) (discrete : bool) :
  p <> [] ->
  exists P,
    probability_functions p p discrete = Ok (map Fin P, map Fin P)
    /\ probability_vector P.
Proof.
  intros Hp. destruct discrete.
  - destruct (probability_functions_discrete p p Hp Hp)
      as [P [Q [Hpf [_ [HvP _]]]]].
    exists P. split; [| exact HvP].
    rewrite Hpf. now rewrite <- (probability_functions_same p true _ _ Hpf).
  - (* the lowest grid point is the smallest sample: its kernel reaches it *)
    destruct (continuous_estimators p p Hp Hp)
      as [minx [maxx [A [B [[Hmin _] [_ [Hpf [_ [_ [_ [_ [HoA _]]]]]]]]]]]].
    assert (Hr : kernel_reaches p (linspace minx maxx 100)).
    { exists minx, minx. split.
      - apply in_app_iff in Hmin. tauto.
      - split; [apply linspace_first; lia |].
        unfold underflow_distance. rewrite Rminus_diag, Rabs_R0. lra. }
    destruct (density_or_nan_reached _ _ _ Hr HoA) as [dens [-> [_ Hv]]].
    exists dens. split; [| exact Hv].
    rewrite Hpf. now rewrite <- (probability_functions_same p false _ _ Hpf).
Qed.

(** X7. Comparing a non-empty sample collection with itself gives distance
    0 with each of the four methods and either estimator. *)
Theorem self_distance_zero (p : list R) (method : string) (discrete : bool) :
  p <> [] ->
  In method ["KS"; "Hellinger"; "JS"; "min"]%string ->
  distance_pior_posterior p p method discrete = Ok (Fin 0).
Proof.
  intros Hp Hm.
  destruct (probability_functions_self p discrete Hp) as [P [Hpf HvP]].
  cbn in Hm. destruct Hm as [<- | [<- | [<- | [<- | []]]]].
  - unfold distance_pior_posterior. cbn -[ks_2samp_statistic].
    destruct (ks_2samp_statistic_gap p p Hp Hp)
      as [d [Hks [_ [_ [v [_ Hd]]]]]].
    rewrite Hks. do 2 apply f_equal. rewrite <- Hd.
    replace (ecdf p v - ecdf p v) with 0 by ring. apply Rabs_R0.
  - rewrite (distance_hellinger_unfold p p discrete _ Hpf). cbn [fst snd].
    rewrite hellinger_fin by apply HvP. do 2 apply f_equal.
    now apply (hellinger_distance_range P P eq_refl HvP HvP).
  - rewrite (distance_js_unfold p p discrete _ Hpf). cbn [fst snd].
    rewrite jensenshannon_fin by exact HvP. do 2 apply f_equal.
    now apply (js_distance_range P P eq_refl HvP HvP).
  - rewrite (distance_min_unfold p p discrete _ Hpf). cbn [fst snd].
    rewrite min_overlap_fin. do 2 apply f_equal.
    now apply (overlap_distance_range P P eq_refl HvP HvP).
Qed.

Lemma self_distance_zero_witness :
  distance_pior_posterior [1; 4; 4] [1; 4; 4] "JS" false = Ok (Fin 0).
Proof.
  apply (self_distance_zero [1; 4; 4] "JS" false); [discriminate |].
  cbn. tauto.
Defined.

(** ** Collections with no common value *)

Lemma count_eq_zero (s : list R) (v : R) : ~ In v s -> count_eq s v = 0%Z.
Proof.
  intros Hnin. unfold count_eq.
  induction s as [| h t IH]; [reflexivity |].
  cbn [filter]. rewrite Reqb_false.
  - apply IH. intros H. apply Hnin. now right.
  - intros ->. apply Hnin. now left.
Qed.

Lemma Forall2_of_nth {A : Type} (rel : A -> A -> Prop) (d : A)
  (P Q : list A) :
  length P = length Q ->
  (forall i, (i < length P)%nat -> rel (nth i P d) (nth i Q d)) ->
  Forall2 rel P Q.
Proof.
  revert Q.
  induction P as [| a P IH]; intros [| b Q] Hlen Hnth; try discriminate.
  - constructor.
  - injection Hlen as Hlen. constructor.
    + apply (Hnth 0%nat). cbn. lia.
    + apply IH; [exact Hlen |]. intros i Hi. apply (Hnth (S i)). cbn. lia.
Qed.

(** Over the shared grid, two collections with no common value never both
    give mass to the same grid point. *)
Lemma discrete_estimators_disjoint (p q : list R) :
  p <> [] -> q <> [] -> (forall v, In v p -> ~ In v q) ->
  exists P Q,
    probability_functions p q true = Ok (map Fin P, map Fin Q)
    /\ probability_vector P /\ probability_vector Q
    /\ Forall2 (fun a b => a = 0 \/ b = 0) P Q.
Proof.
  intros Hp Hq Hdisj.
  set (x := unique (p ++ q)).
  destruct (_pmf_frequency p x) as [P [HP [HlP [HvP HfP]]]];
    [apply unique_sorted
    | intros u Hu; apply unique_In, in_app_iff; now left | exact Hp |].
  destruct (_pmf_frequency q x) as [Q [HQ [HlQ [HvQ HfQ]]]];
    [apply unique_sorted
    | intros u Hu; apply unique_In, in_app_iff; now right | exact Hq |].
  exists P, Q. split; [| split; [exact HvP | split; [exact HvQ |]]].
  - unfold probability_functions. fold x. rewrite HP, HQ. reflexivity.
  - apply (Forall2_of_nth _ 0); [congruence |].
    intros i Hi. rewrite HlP in Hi.
    rewrite (HfP i Hi), (HfQ i Hi).
    assert (Hin : In (nth i x 0) (p ++ q)) by (apply unique_In, nth_In, Hi).
    apply in_app_iff in Hin.
    destruct (In_dec Req_dec_T (nth i x 0) p) as [Hinp | Hninp].
    + right. rewrite count_eq_zero by (now apply Hdisj).
      unfold Rdiv. ring.
    + left. rewrite count_eq_zero by exact Hninp.
      unfold Rdiv. ring.
Qed.

Lemma disjoint_min_sum (P Q : list R) :
  Forall (fun m => 0 <= m) P -> Forall (fun m => 0 <= m) Q ->
  Forall2 (fun a b => a = 0 \/ b = 0) P Q ->
  Rsum (map2 Rmin P Q) = 0.
Proof.
  intros HP HQ H. induction H as [| a b P Q Hab H IH]; [reflexivity |].
  inversion HP as [| ? ? Ha HP']; inversion HQ as [| ? ? Hb HQ']; subst.
  rewrite map2_cons, Rsum_cons, IH by assumption.
  unfold Rmin. destruct (Rle_dec a b); lra.
Qed.

Lemma disjoint_hellinger_sum (P Q : list R) :
  Forall (fun m => 0 <= m) P -> Forall (fun m => 0 <= m) Q ->
  Forall2 (fun a b => a = 0 \/ b = 0) P Q ->
  Rsum (map (fun c => c ^ 2) (map2 (fun a b => sqrt a - sqrt b) P Q))
  = Rsum P + Rsum Q.
Proof.
  intros HP HQ H. induction H as [| a b P Q Hab H IH]; [cbn; lra |].
  inversion HP as [| ? ? Ha HP']; inversion HQ as [| ? ? Hb HQ']; subst.
  rewrite map2_cons. cbn [map]. rewrite !Rsum_cons, IH by assumption.
  pose proof (sqrt_def a Ha). pose proof (sqrt_def b Hb).
  destruct Hab as [-> | ->]; rewrite sqrt_0 in *; nra.
Qed.

Lemma disjoint_js_sum (P Q : list R) :
  Forall (fun m => 0 <= m) P -> Forall (fun m => 0 <= m) Q ->
  Forall2 (fun a b => a = 0 \/ b = 0) P Q ->
  Rsum (map2 (fun a b => rel_entr_R a ((a + b) / 2)
                         + rel_entr_R b ((a + b) / 2)) P Q)
  = (Rsum P + Rsum Q) * ln 2.
Proof.
  intros HP HQ H. induction H as [| a b P Q Hab H IH]; [cbn; lra |].
  inversion HP as [| ? ? Ha HP']; inversion HQ as [| ? ? Hb HQ']; subst.
  rewrite map2_cons, !Rsum_cons, IH by assumption.
  assert (Hterm : forall c, 0 <= c ->
            rel_entr_R 0 ((0 + c) / 2) + rel_entr_R c ((0 + c) / 2)
            = c * ln 2).
  { intros c Hc. unfold rel_entr_R. rewrite (Rltb_false 0 0) by lra.
    destruct (Rlt_dec 0 c) as [Hpos | Hz].
    - rewrite (Rltb_true 0 c Hpos).
      replace (c / ((0 + c) / 2)) with 2 by (field; lra). ring.
    - rewrite (Rltb_false 0 c Hz). assert (c = 0) by lra. subst. ring. }
  destruct Hab as [-> | ->].
  - rewrite (Hterm b Hb). ring.
  - replace (a + 0) with (0 + a) by ring.
    rewrite (Rplus_comm (rel_entr_R a _)), (Hterm a Ha). ring.
Qed.

(** X11. With the discrete estimator, two non-empty collections that share
    no value are at the largest distance each estimator method can give:
    1 for "Hellinger", 1 for "min" and sqrt (ln 2) for "JS". *)
Theorem disjoint_samples_maximal (p q : list R) :
  p <> [] -> q <> [] -> (forall v, In v p -> ~ In v q) ->
  distance_pior_posterior p q "Hellinger" true = Ok (Fin 1)
  /\ distance_pior_posterior p q "min" true = Ok (Fin 1)
  /\ distance_pior_posterior p q "JS" true = Ok (Fin (sqrt (ln 2))).
Proof.
  intros Hp Hq Hdisj.
  destruct (discrete_estimators_disjoint p q Hp Hq Hdisj)
    as [P [Q [Hpf [HvP [HvQ H]]]]].
  destruct HvP as [HP HsP]. destruct HvQ as [HQ HsQ].
  split; [| split].
  - rewrite (distance_hellinger_unfold p q true _ Hpf). cbn [fst snd].
    rewrite hellinger_fin by assumption. do 2 apply f_equal.
    unfold hellinger_distance, euclidean_norm.
    rewrite disjoint_hellinger_sum, HsP, HsQ by assumption.
    replace (1 + 1) with 2 by ring.
    pose proof sqrt2_pos. field. lra.
  - rewrite (distance_min_unfold p q true _ Hpf). cbn [fst snd].
    rewrite min_overlap_fin. do 2 apply f_equal.
    unfold overlap_distance. rewrite disjoint_min_sum by assumption. ring.
  - rewrite (distance_js_unfold p q true _ Hpf). cbn [fst snd].
    rewrite jensenshannon_fin by (split; assumption). do 2 apply f_equal.
    unfold js_distance. cbv zeta.
    rewrite js_sum_terms, disjoint_js_sum, HsP, HsQ by assumption.
    f_equal. field.
Qed.

Lemma disjoint_samples_maximal_witness :
  distance_pior_posterior [1; 1; 3] [2] "Hellinger" true = Ok (Fin 1)
  /\ distance_pior_posterior [1; 1; 3] [2] "min" true = Ok (Fin 1)
  /\ distance_pior_posterior [1; 1; 3] [2] "JS" true = Ok (Fin (sqrt (ln 2))).
Proof.
  apply (disjoint_samples_maximal [1; 1; 3] [2]); try discriminate.
  intros v Hv Hq. cbn in Hv, Hq.
  destruct Hq as [<- | []]. destruct Hv as [H | [H | [H | []]]]; lra.
Defined.

(** ** The order of the samples does not matter *)
















(** * Outlier interpolation *)

Lemma set_nth_length (i : nat) (v : float64) (a : list float64) :
  length (set_nth i v a) = length a.
Proof.
  revert i. induction a as [| h t IH]; intros [| j]; cbn; try reflexivity.
  now rewrite IH.
Qed.

Lemma set_nth_other (i k : nat) (v d : float64) (a : list float64) :
  i <> k -> nth k (set_nth i v a) d = nth k a d.
Proof.
  revert i k. induction a as [| h t IH]; intros i k Hne.
  - destruct i; reflexivity.
  - destruct i as [| j], k as [| m]; cbn; try reflexivity; try congruence.
    apply IH. congruence.
Qed.

Lemma set_nth_same (i : nat) (v d : float64) (a : list float64) :
  (i < length a)%nat -> nth i (set_nth i v a) d = v.
Proof.
  revert i. induction a as [| h t IH]; intros [| j] Hi; cbn in *; try lia.
  - reflexivity.
  - apply IH. lia.
Qed.

Lemma scatter_set_length (a : list float64) (idx : list nat)
  (vals : list float64) :
  length (scatter_set a idx vals) = length a.
Proof.
  revert a vals. induction idx as [| i idx IH]; intros a [| v vals];
    cbn; try reflexivity.
  now rewrite IH, set_nth_length.
Qed.

Lemma scatter_set_other (a : list float64) (idx : list nat)
  (vals : list float64) (k : nat) (d : float64) :
  ~ In k idx -> nth k (scatter_set a idx vals) d = nth k a d.
Proof.
  revert a vals. induction idx as [| i idx IH]; intros a [| v vals] Hk;
    cbn; try reflexivity.
  rewrite IH by (intros H; apply Hk; now right).
  apply set_nth_other. intros ->. apply Hk. now left.
Qed.

(** X14. A call of interpolate_outliers that returns keeps the length of
    the series and leaves every position that is not listed as an outlier
    unchanged. *)
Theorem interpolate_outliers_frame (x : list R) (outlier_idx : list nat)
  (r : list float64) :
  interpolate_outliers x outlier_idx = inl r ->
  length r = length x
  /\ forall k, ~ In k outlier_idx ->
       nth k r (Fin 0) = nth k (map Fin x) (Fin 0).
Proof.
  unfold interpolate_outliers. cbv zeta.
  destruct (inverse_idx (length x) outlier_idx) as [| i inv]; [discriminate |].
  destruct (interp1d_linear _ _ _) as [y_new | e]; [| discriminate].
  intros H. injection H as <-. split.
  - now rewrite scatter_set_length, length_map.
  - intros k Hk. now apply scatter_set_other.
Qed.

(** ** Index arithmetic *)

Lemma gather_in_range {A : Type} (d : A) (a : list A) (idx : list nat) :
  Forall (fun i => (i < length a)%nat) idx ->
  gather d a idx = map (fun i => nth i a d) idx.
Proof.
  intros H. unfold gather. apply map_ext_in. intros i Hi.
  rewrite Forall_forall in H. specialize (H i Hi).
  now rewrite Nat.min_l by lia.
Qed.

Lemma gather_time_idx (n : nat) (idx : list nat) :
  Forall (fun i => (i < n)%nat) idx -> gather 0%nat (seq 0 n) idx = idx.
Proof.
  intros H. rewrite gather_in_range by (now rewrite length_seq).
  rewrite <- (map_id idx) at 2. apply map_ext_in. intros i Hi.
  rewrite Forall_forall in H. now rewrite seq_nth by (now apply H).
Qed.

Lemma inverse_idx_In (n : nat) (outlier_idx : list nat) (i : nat) :
  In i (inverse_idx n outlier_idx) <-> (i < n)%nat /\ ~ In i outlier_idx.
Proof.
  unfold inverse_idx. rewrite filter_In, in_seq, negb_true_iff.
  split; intros [H1 H2]; (split; [lia |]).
  - intros Hin. assert (Ht : existsb (Nat.eqb i) outlier_idx = true).
    { apply existsb_exists. exists i. split; [exact Hin | apply Nat.eqb_refl]. }
    congruence.
  - destruct (existsb (Nat.eqb i) outlier_idx) eqn:E; [| reflexivity].
    apply existsb_exists in E. destruct E as [j [Hj Hij]].
    apply Nat.eqb_eq in Hij. subst j. contradiction.
Qed.

Lemma inverse_idx_in_range (n : nat) (outlier_idx : list nat) :
  Forall (fun i => (i < n)%nat) (inverse_idx n outlier_idx).
Proof. apply Forall_forall. intros i Hi. now apply inverse_idx_In in Hi. Qed.

Lemma filter_none {A : Type} (f : A -> bool) (l : list A) :
  (forall a, In a l -> f a = false) -> filter f l = [].
Proof.
  induction l as [| h t IH]; intros H; [reflexivity |].
  cbn. rewrite (H h (or_introl eq_refl)). apply IH.
  intros a Ha. apply H. now right.
Qed.

Lemma keep_iff (outlier_idx : list nat) (i : nat) :
  negb (existsb (Nat.eqb i) outlier_idx) = true <-> ~ In i outlier_idx.
Proof.
  rewrite negb_true_iff. split.
  - intros E Hin. assert (Ht : existsb (Nat.eqb i) outlier_idx = true).
    { apply existsb_exists. exists i. split; [exact Hin | apply Nat.eqb_refl]. }
    congruence.
  - intros Hnin. destruct (existsb (Nat.eqb i) outlier_idx) eqn:E; [| reflexivity].
    apply existsb_exists in E. destruct E as [j [Hj Hij]].
    apply Nat.eqb_eq in Hij. subst j. contradiction.
Qed.

Lemma keep_false (outlier_idx : list nat) (i : nat) :
  In i outlier_idx -> negb (existsb (Nat.eqb i) outlier_idx) = false.
Proof.
  intros Hin. apply negb_false_iff, existsb_exists.
  exists i. split; [exact Hin | apply Nat.eqb_refl].
Qed.

Lemma existsb_none {A : Type} (f : A -> bool) (l : list A) :
  (forall a, In a l -> f a = false) -> existsb f l = false.
Proof.
  induction l as [| h t IH]; intros H; [reflexivity |].
  cbn. rewrite (H h (or_introl eq_refl)). apply IH.
  intros a Ha. apply H. now right.
Qed.

(** The kept indices start with 0 when position 0 is kept. *)
Lemma inverse_idx_head (n : nat) (outlier_idx : list nat) :
  (0 < n)%nat -> ~ In 0%nat outlier_idx ->
  exists rest, inverse_idx n outlier_idx = 0%nat :: rest.
Proof.
  intros Hn H0. unfold inverse_idx.
  destruct n as [| m]; [lia |]. cbn [seq filter].
  rewrite (proj2 (keep_iff outlier_idx 0) H0). eauto.
Qed.

(** The kept indices end with n - 1 when that position is kept. *)
Lemma inverse_idx_last (n : nat) (outlier_idx : list nat) :
  (0 < n)%nat -> ~ In (n - 1)%nat outlier_idx ->
  last (inverse_idx n outlier_idx) 0%nat = (n - 1)%nat.
Proof.
  intros Hn Hl. unfold inverse_idx.
  replace n with ((n - 1) + 1)%nat at 1 by lia.
  rewrite seq_app, filter_app. cbn [seq filter Nat.add].
  rewrite (proj2 (keep_iff outlier_idx (n - 1)) Hl).
  apply last_last.
Qed.

Lemma last_map {A B : Type} (f : A -> B) (l : list A) (d : A) :
  last (map f l) (f d) = f (last l d).
Proof.
  induction l as [| a [| b t] IH]; try reflexivity.
  change (last (map f (a :: b :: t)) (f d)) with (last (map f (b :: t)) (f d)).
  exact IH.
Qed.

Lemma last_In {A : Type} (l : list A) (d : A) : l <> [] -> In (last l d) l.
Proof.
  induction l as [| a [| b t] IH]; intros H; [congruence | now left |].
  right. apply IH. discriminate.
Qed.

(** X15. For outlier positions inside the series and at least one position
    kept: when the first or the last position is listed as an outlier the
    call raises ValueError (the interpolation cannot extrapolate), and when
    neither is listed the call returns a series. *)
Theorem interpolate_outliers_ends (x : list R) (outlier_idx : list nat) :
  Forall (fun i => (i < length x)%nat) outlier_idx ->
  (exists i, (i < length x)%nat /\ ~ In i outlier_idx) ->
  (In 0%nat outlier_idx \/ In (length x - 1)%nat outlier_idx ->
   interpolate_outliers x outlier_idx = inr (Std ValueError))
  /\ (~ In 0%nat outlier_idx -> ~ In (length x - 1)%nat outlier_idx ->
      exists r, interpolate_outliers x outlier_idx = inl r).
Proof.
  intros Hrange [i0 [Hi0 Hkeep]].
  set (n := length x) in *.
  assert (Hinv_ne : inverse_idx n outlier_idx <> []).
  { intros H. assert (Hin : In i0 (inverse_idx n outlier_idx))
      by (apply inverse_idx_In; tauto).
    rewrite H in Hin. exact Hin. }
  unfold interpolate_outliers. fold n. cbv zeta.
  destruct (inverse_idx n outlier_idx) as [| f inv] eqn:Einv; [congruence |].
  rewrite (gather_time_idx n (f :: inv))
    by (rewrite <- Einv; apply inverse_idx_in_range).
  rewrite (gather_time_idx n outlier_idx) by exact Hrange.
  assert (Hf : (f < n)%nat /\ ~ In f outlier_idx).
  { apply inverse_idx_In. rewrite Einv. now left. }
  assert (Hl : (last (f :: inv) 0 < n)%nat /\ ~ In (last (f :: inv) 0%nat) outlier_idx).
  { apply inverse_idx_In. rewrite Einv. apply last_In. discriminate. }
  assert (Hlastmap : last (map INR (f :: inv)) 0 = INR (last (f :: inv) 0%nat))
    by apply (last_map INR (f :: inv) 0%nat).
  unfold interp1d_linear. cbn [map].
  change (INR f :: map INR inv) with (map INR (f :: inv)).
  rewrite Hlastmap.
  split.
  - intros Hends.
    destruct (existsb (fun t => Rltb t (INR f)) (map INR outlier_idx)) eqn:E1;
      [reflexivity |].
    assert (E2 : existsb (fun t => Rltb (INR (last (f :: inv) 0%nat)) t)
                   (map INR outlier_idx) = true).
    { apply existsb_exists. destruct Hends as [H0 | Hn].
      - exfalso.
        assert (Ht : existsb (fun t => Rltb t (INR f)) (map INR outlier_idx)
                     = true).
        { apply existsb_exists. exists (INR 0). split; [now apply in_map |].
          apply Rltb_true. apply lt_INR.
          destruct f; [tauto | lia]. }
        congruence.
      - exists (INR (n - 1)). split; [now apply in_map |].
        apply Rltb_true. apply lt_INR.
        destruct Hl as [Hl1 Hl2].
        assert (last (f :: inv) 0%nat <> (n - 1)%nat) by congruence. lia. }
    rewrite E2. reflexivity.
  - intros H0 Hn.
    assert (Hn0 : (0 < n)%nat) by lia.
    destruct (inverse_idx_head n outlier_idx Hn0 H0) as [rest Hhead].
    assert (Hf0 : f = 0%nat) by congruence.
    assert (Hlast : last (f :: inv) 0%nat = (n - 1)%nat).
    { rewrite <- Einv. now apply inverse_idx_last. }
    rewrite Hlast, Hf0.
    assert (E1 : existsb (fun t => Rltb t (INR 0)) (map INR outlier_idx)
                 = false).
    { apply existsb_none. intros t Ht.
      apply in_map_iff in Ht. destruct Ht as [k [<- _]].
      apply Rltb_false. pose proof (pos_INR k). cbn. lra. }
    assert (E2 : existsb (fun t => Rltb (INR (n - 1)) t) (map INR outlier_idx)
                 = false).
    { apply existsb_none. intros t Ht.
      apply in_map_iff in Ht. destruct Ht as [k [<- Hk]].
      apply Rltb_false. intros H. apply INR_lt in H.
      rewrite Forall_forall in Hrange. specialize (Hrange k Hk). lia. }
    rewrite E1, E2. eauto.
Qed.

(** ** The interpolated values *)

Lemma scatter_set_In (a : list float64) (idx : list nat)
  (h : nat -> float64) (k : nat) (d : float64) :
  In k idx -> (k < length a)%nat ->
  nth k (scatter_set a idx (map h idx)) d = h k.
Proof.
  revert a. induction idx as [| i idx IH]; intros a Hin Hk; [destruct Hin |].
  cbn [map scatter_set].
  destruct (in_dec Nat.eq_dec k idx) as [Hin' | Hnin].
  - apply IH; [exact Hin' | now rewrite set_nth_length].
  - destruct Hin as [-> | Hin]; [| contradiction].
    rewrite scatter_set_other by exact Hnin.
    now apply set_nth_same.
Qed.

(** The kept indices around a run of outliers: everything before [lo], then
    [lo] and [hi] next to each other, then everything after [hi]. *)
Lemma inverse_idx_split (n : nat) (outlier_idx : list nat) (lo hi : nat) :
  (lo < hi)%nat -> (hi < n)%nat ->
  ~ In lo outlier_idx -> ~ In hi outlier_idx ->
  (forall j, (lo < j < hi)%nat -> In j outlier_idx) ->
  exists A B,
    inverse_idx n outlier_idx = A ++ lo :: hi :: B
    /\ Forall (fun a => (a < lo)%nat) A
    /\ Forall (fun b => (hi < b)%nat) B.
Proof.
  intros Hlohi Hhin Hlo Hhi Hmid.
  set (f := fun i => negb (existsb (Nat.eqb i) outlier_idx)).
  exists (filter f (seq 0 lo)), (filter f (seq (S hi) (n - hi - 1))).
  split; [| split].
  - unfold inverse_idx. fold f.
    replace n with (lo + (S ((hi - lo - 1) + S (n - hi - 1))))%nat at 1 by lia.
    rewrite seq_app, filter_app. cbn [Nat.add]. f_equal.
    cbn [seq filter]. unfold f at 1.
    rewrite (proj2 (keep_iff outlier_idx lo) Hlo). f_equal.
    rewrite seq_app, filter_app.
    rewrite (filter_none f (seq (S lo) (hi - lo - 1))).
    + cbn [app]. replace (S lo + (hi - lo - 1))%nat with hi by lia.
      cbn [seq filter]. unfold f at 1.
      now rewrite (proj2 (keep_iff outlier_idx hi) Hhi).
    + intros j Hj. apply in_seq in Hj. unfold f. apply keep_false.
      apply Hmid. lia.
  - apply Forall_forall. intros a Ha. apply filter_In in Ha.
    destruct Ha as [Ha _]. apply in_seq in Ha. lia.
  - apply Forall_forall. intros b Hb. apply filter_In in Hb.
    destruct Hb as [Hb _]. apply in_seq in Hb. lia.
Qed.

Lemma searchsorted_below (l : list nat) (k : nat) :
  Forall (fun a => (a < k)%nat) l ->
  searchsorted (map INR l) (INR k) = length l.
Proof.
  unfold searchsorted. induction 1 as [| a l Ha _ IH]; [reflexivity |].
  cbn [map filter]. rewrite Rltb_true by (now apply lt_INR).
  cbn [length]. now rewrite IH.
Qed.

Lemma searchsorted_above (l : list nat) (k : nat) :
  Forall (fun b => (k < b)%nat) l ->
  searchsorted (map INR l) (INR k) = 0%nat.
Proof.
  unfold searchsorted. induction 1 as [| b l Hb _ IH]; [reflexivity |].
  cbn [map filter]. rewrite Rltb_false; [exact IH |].
  intros H. apply INR_lt in H. lia.
Qed.

Lemma searchsorted_app (l m : list R) (t : R) :
  searchsorted (l ++ m) t = (searchsorted l t + searchsorted m t)%nat.
Proof. unfold searchsorted. now rewrite filter_app, length_app. Qed.

Lemma searchsorted_split (A B : list nat) (lo k hi : nat) :
  Forall (fun a => (a < lo)%nat) A -> Forall (fun b => (hi < b)%nat) B ->
  (lo < k < hi)%nat ->
  searchsorted (map INR (A ++ lo :: hi :: B)) (INR k) = S (length A).
Proof.
  intros HA HB Hk.
  change (A ++ lo :: hi :: B) with (A ++ [lo] ++ hi :: B).
  rewrite !map_app, !searchsorted_app.
  rewrite (searchsorted_below A k)
    by (eapply Forall_impl; [| exact HA]; intros; cbv beta in *; lia).
  rewrite (searchsorted_below [lo] k) by (constructor; [lia | constructor]).
  rewrite (searchsorted_above (hi :: B) k).
  - cbn [length]. lia.
  - constructor; [lia |].
    eapply Forall_impl; [| exact HB]. intros; cbv beta in *; lia.
Qed.

Lemma nth_after_middle {A : Type} (l l' : list A) (a b d : A) :
  nth (S (length l)) (l ++ a :: b :: l') d = b.
Proof.
  change (l ++ a :: b :: l') with (l ++ [a] ++ b :: l').
  rewrite app_assoc.
  replace (S (length l)) with (length (l ++ [a]))
    by (rewrite length_app; cbn; lia).
  apply nth_middle.
Qed.

Lemma nth_map_middle {A B : Type} (f : A -> B) (l : list A) (l' : list B)
  (a d : B) :
  nth (length l) (map f l ++ a :: l') d = a.
Proof. rewrite <- (length_map f l). apply nth_middle. Qed.

Lemma nth_map_after_middle {A B : Type} (f : A -> B) (l : list A)
  (l' : list B) (a b d : B) :
  nth (S (length l)) (map f l ++ a :: b :: l') d = b.
Proof. rewrite <- (length_map f l). apply nth_after_middle. Qed.

(** Between two neighbouring data points the interpolant is the straight
    line through them. *)
Lemma _call_linear_between (g : nat -> R) (A B : list nat) (lo k hi : nat) :
  Forall (fun a => (a < lo)%nat) A -> Forall (fun b => (hi < b)%nat) B ->
  (lo < k < hi)%nat ->
  _call_linear (map INR (A ++ lo :: hi :: B)) (map g (A ++ lo :: hi :: B))
               (INR k)
  = Fin ((g hi - g lo) / (INR hi - INR lo) * (INR k - INR lo) + g lo).
Proof.
  intros HA HB Hk. unfold _call_linear.
  rewrite (searchsorted_split A B lo k hi HA HB Hk).
  rewrite length_map, length_app. cbn [length].
  replace (Nat.min (Nat.max (S (length A)) 1)
             (length A + S (S (length B)) - 1))%nat
    with (S (length A)) by lia.
  cbv zeta iota. rewrite !map_app. cbn [map].
  rewrite !nth_map_after_middle, !nth_map_middle.
  assert (Hne : INR hi - INR lo <> 0).
  { assert (INR lo < INR hi) by (apply lt_INR; lia). lra. }
  rewrite fdiv_fin by exact Hne. reflexivity.
Qed.

(** X16. When a call returns, an outlier position k that lies between two
    kept positions lo < k < hi, with every position strictly between lo and
    hi listed as an outlier, receives the value of the straight line through
    (lo, x[lo]) and (hi, x[hi]):
    (x[hi] - x[lo]) / (hi - lo) * (k - lo) + x[lo]. *)
Theorem interpolate_outliers_linear (x : list R) (outlier_idx : list nat)
  (r : list float64) (lo k hi : nat) :
  interpolate_outliers x outlier_idx = inl r ->
  Forall (fun i => (i < length x)%nat) outlier_idx ->
  (lo < k < hi)%nat -> (hi < length x)%nat ->
  ~ In lo outlier_idx -> ~ In hi outlier_idx ->
  (forall j, (lo < j < hi)%nat -> In j outlier_idx) ->
  nth k r (Fin 0)
  = Fin ((nth hi x 0 - nth lo x 0) / (INR hi - INR lo) * (INR k - INR lo)
         + nth lo x 0).
Proof.
  intros Hcall Hrange Hk Hhi Hlo_keep Hhi_keep Hmid.
  set (n := length x) in *.
  destruct (inverse_idx_split n outlier_idx lo hi) as [A [B [Hinv [HA HB]]]];
    try assumption; try lia.
  unfold interpolate_outliers in Hcall. fold n in Hcall. cbv zeta in Hcall.
  assert (Hinr : Forall (fun i => (i < n)%nat) (inverse_idx n outlier_idx))
    by apply inverse_idx_in_range.
  rewrite (gather_time_idx n _ Hinr) in Hcall.
  rewrite (gather_time_idx n _ Hrange) in Hcall.
  rewrite (gather_in_range 0 x _ Hinr) in Hcall.
  rewrite Hinv in Hcall.
  destruct (A ++ lo :: hi :: B) as [| i0 l0] eqn:El.
  { destruct A; discriminate. }
  rewrite <- El in Hcall.
  unfold interp1d_linear in Hcall. rewrite El in Hcall at 1.
  cbn [map] in Hcall.
  destruct (existsb _ _); [discriminate |].
  destruct (existsb _ _); [discriminate |].
  injection Hcall as <-.
  rewrite map_map.
  rewrite (scatter_set_In (map Fin x) outlier_idx
             (fun i => _call_linear (map INR (A ++ lo :: hi :: B))
                         (map (fun i => nth i x 0) (A ++ lo :: hi :: B))
                         (INR i)) k).
  - now apply (_call_linear_between (fun i => nth i x 0)).
  - apply Hmid. lia.
  - rewrite length_map. fold n. lia.
Qed.

(** *** A concrete run *)

Ltac Rrun_interp :=
  repeat (progress
            (cbn [length seq filter existsb Nat.eqb negb orb map nth Nat.min
                  Nat.max Nat.sub Nat.add last INR app fadd fmul bind];
             Rdecide)).

Example interpolate_outliers_example :
  exists m,
    interpolate_outliers [1; 9; 3; 8] [1%nat] = inl [Fin 1; Fin m; Fin 3; Fin 8]
    /\ m = 2.
Proof.
  unfold interpolate_outliers, inverse_idx, gather, interp1d_linear.
  Rrun_interp.
  unfold _call_linear, searchsorted. Rrun_interp.
  rewrite fdiv_fin by lra. Rrun_interp.
  eexists. split; [reflexivity |]. lra.
Qed.

Example interpolate_outliers_first_position :
  interpolate_outliers [9; 1; 3] [0%nat] = inr (Std ValueError).
Proof.
  unfold interpolate_outliers, inverse_idx, gather, interp1d_linear.
  Rrun_interp. reflexivity.
Qed.

Lemma interpolate_outliers_frame_witness :
  exists r,
    interpolate_outliers [1; 9; 3; 8] [1%nat] = inl r
    /\ length r = length [1; 9; 3; 8]
    /\ forall k, ~ In k [1%nat] ->
         nth k r (Fin 0) = nth k (map Fin [1; 9; 3; 8]) (Fin 0).
Proof.
  destruct interpolate_outliers_example as [m [H _]].
  eexists. split; [exact H |].
  apply (interpolate_outliers_frame [1; 9; 3; 8] [1%nat] _ H).
Defined.

Lemma interpolate_outliers_ends_witness :
  exists r, interpolate_outliers [1; 9; 3; 8] [1%nat] = inl r.
Proof.
  apply (interpolate_outliers_ends [1; 9; 3; 8] [1%nat]).
  - repeat constructor.
  - exists 0%nat. split; [cbn; lia |]. cbn. lia.
  - cbn. lia.
  - cbn. lia.
Defined.

Lemma interpolate_outliers_linear_witness :
  exists r,
    interpolate_outliers [1; 9; 3; 8] [1%nat] = inl r
    /\ nth 1 r (Fin 0)
       = Fin ((nth 2 [1; 9; 3; 8] 0 - nth 0 [1; 9; 3; 8] 0)
              / (INR 2 - INR 0) * (INR 1 - INR 0)
              + nth 0 [1; 9; 3; 8] 0).
Proof.
  destruct interpolate_outliers_example as [m [H _]].
  eexists. split; [exact H |].
  apply (interpolate_outliers_linear [1; 9; 3; 8] [1%nat] _ 0 1 2 H).
  - repeat constructor.
  - lia.
  - cbn. lia.
  - cbn. lia.
  - cbn. lia.
  - intros j Hj. assert (j = 1%nat) by lia. subst. now left.
Defined.
